(** * LRU-cached range sums over a mutable array (task_1.py) and the
      sliding-window rate limiter (task_2.py)

    A shallow embedding of [LRUCache], of the cached and uncached range-sum
    service built on it, of the workload generator [make_queries] and of
    [SlidingWindowRateLimiter], followed by the properties of the
    specification that were checked against them and by further properties
    read off the code.

    Python integers are unbounded, so they are [Z].  A Python list of
    integers is a [list Z]; an [OrderedDict] is an association list whose
    order is the dictionary order (front = oldest, back = newest). *)

From stdpp Require Import base numbers list gmap strings.
From Stdlib Require Import QArith.

Local Open Scope Z_scope.

(** ** Python outcomes *)

Inductive exn := IndexError | KeyError | ValueError.

Inductive outcome (A : Type) :=
  | Returns (a : A)
  | Raises (e : exn).
Arguments Returns {A} a.
Arguments Raises {A} e.

Global Instance outcome_ret : MRet outcome := λ A a, Returns a.
Global Instance outcome_bind : MBind outcome := λ A B f m,
  match m with
  | Returns a => f a
  | Raises e => Raises e
  end.

(** ** collections.OrderedDict, keyed by range pairs *)

Module OrderedDict.

Abbreviation key := (Z * Z)%type.
Abbreviation t := (list (key * Z)).

Definition keys (d : t) : list key := d.*1.

(** [k in d] *)
Definition contains (k : key) (d : t) : bool := bool_decide (k ∈ keys d).

(** [d[k]] as a lookup; the source reads it only after [k in d]. *)
Fixpoint getitem (k : key) (d : t) : option Z :=
  match d with
  | [] => None
  | (k', v) :: d' => if decide (k' = k) then Some v else getitem k d'
  end.

(** [del d[k]]; the source deletes only after [k in d]. *)
Definition delitem (k : key) (d : t) : t := filter (λ e, e.1 ≠ k) d.

(** [d.move_to_end(k)]: the entry leaves its place and becomes the last
    one.  Python raises [KeyError] for an absent key; both calls in the
    source sit under a [key in self.cache] test. *)
Definition move_to_end (k : key) (d : t) : t :=
  match getitem k d with
  | Some v => delitem k d ++ [(k, v)]
  | None => d
  end.

(** [d[k] = v]: an existing key keeps its place, a new one is appended. *)
Definition setitem (k : key) (v : Z) (d : t) : t :=
  if contains k d
  then (λ e, if decide (e.1 = k) then (e.1, v) else e) <$> d
  else d ++ [(k, v)].

(** [d.popitem(last=False)]: drops the first (oldest) entry.  The source
    calls it right after an insertion, so the dictionary is not empty. *)
Definition popitem_first (d : t) : t := drop 1 d.

(** Dictionaries never hold a key twice. *)
Definition wf (d : t) : Prop := NoDup (keys d).

End OrderedDict.

Abbreviation key := OrderedDict.key.

(** ** class LRUCache *)

Record LRUCache := mkLRU {
  cache : OrderedDict.t;
  capacity : Z
}.

(** [LRUCache.__init__] *)
Definition init (capacity : Z) : outcome LRUCache :=
  Returns {| cache := []; capacity := capacity |}.

(** [LRUCache.get]: the returned integer and the cache afterwards. *)
Definition get (c : LRUCache) (k : key) : Z * LRUCache :=
  if negb (OrderedDict.contains k (cache c)) then (-1, c)
  else
    let d := OrderedDict.move_to_end k (cache c) in
    (default (-1) (OrderedDict.getitem k d),
     {| cache := d; capacity := capacity c |}).

(** [LRUCache.put] *)
Definition put (c : LRUCache) (k : key) (value : Z) : LRUCache :=
  let d1 := if OrderedDict.contains k (cache c)
            then OrderedDict.move_to_end k (cache c) else cache c in
  let d2 := OrderedDict.setitem k value d1 in
  let d3 := if Z.of_nat (length d2) >? capacity c
            then OrderedDict.popitem_first d2 else d2 in
  {| cache := d3; capacity := capacity c |}.

(** [LRUCache.get_all_keys] *)
Definition get_all_keys (c : LRUCache) : list key := OrderedDict.keys (cache c).

Definition size (c : LRUCache) : nat := length (cache c).

(** ** Python lists of integers *)

(** [sum(l)]: a left fold from 0. *)
Definition sum (l : list Z) : Z := foldl Z.add 0 l.

(** How a slice bound is adjusted to a list of length [n]: a negative bound
    counts from the end, and every bound is clamped into [0, n]. *)
Definition slice_index (n i : Z) : Z :=
  if i <? 0 then Z.max 0 (i + n) else Z.min i n.

(** [arr[start:stop]] *)
Definition list_slice (arr : list Z) (start stop : Z) : list Z :=
  let n := Z.of_nat (length arr) in
  let s := slice_index n start in
  let e := slice_index n stop in
  take (Z.to_nat (e - s)) (drop (Z.to_nat s) arr).

(** [arr[index] = value]: a negative index counts from the end, and an index
    outside [-n, n) raises [IndexError]. *)
Definition list_setitem (arr : list Z) (index value : Z) : outcome (list Z) :=
  let n := Z.of_nat (length arr) in
  let i := if index <? 0 then index + n else index in
  if (i <? 0) || (n <=? i) then Raises IndexError
  else Returns (<[Z.to_nat i := value]> arr).

(** ** The two services *)

Definition range_sum_no_cache (array : list Z) (left right : Z) : outcome Z :=
  Returns (sum (list_slice array left (right + 1))).

Definition update_no_cache (array : list Z) (index value : Z) : outcome (list Z) :=
  list_setitem array index value.

(** The branch of [range_sum_with_cache] that answered the query. *)
Inductive path := CacheHit | CacheMiss.

(** [range_sum_with_cache], with the branch taken made visible. *)
Definition range_sum_with_cache_path (array : list Z) (left right : Z)
    (c : LRUCache) : path * Z * LRUCache :=
  let k := (left, right) in
  let '(cached_result, c1) := get c k in
  if negb (cached_result =? -1) then (CacheHit, cached_result, c1)
  else
    let result := sum (list_slice array left (right + 1)) in
    (CacheMiss, result, put c1 k result).

Definition range_sum_with_cache (array : list Z) (left right : Z)
    (c : LRUCache) : outcome (Z * LRUCache) :=
  let '(_, result, c') := range_sum_with_cache_path array left right c in
  Returns (result, c').

Definition update_with_cache (array : list Z) (index value : Z)
    (c : LRUCache) : outcome (list Z * LRUCache) :=
  array' ← list_setitem array index value;
  let keys_to_invalidate :=
    filter (λ k : key, k.1 ≤ index ∧ index ≤ k.2) (get_all_keys c) in
  let d := foldl (λ d k, if OrderedDict.contains k d
                         then OrderedDict.delitem k d else d)
                 (cache c) keys_to_invalidate in
  Returns (array', {| cache := d; capacity := capacity c |}).

(** The entry of [k], if there is one, holds -1: a cached value that [get]
    cannot tell from absence. *)
Definition hidden (k : key) (c : LRUCache) : Prop :=
  ∀ v, OrderedDict.getitem k (cache c) = Some v → v = -1.

(** [n] identical range queries in a row on one array: the branch taken and
    the value returned by each, and the cache afterwards. *)
Fixpoint range_sum_times (n : nat) (array : list Z) (left right : Z)
    (c : LRUCache) : list (path * Z) * LRUCache :=
  match n with
  | O => ([], c)
  | S n' =>
      let '(p, v, c1) := range_sum_with_cache_path array left right c in
      let '(pvs, c2) := range_sum_times n' array left right c1 in
      ((p, v) :: pvs, c2)
  end.

(** ** Sessions: the two loops of the main program

    The main program runs one list of queries through each service and
    throws the answers away; here the answers of the range queries are
    collected, in order, next to the final state. *)

Inductive Operation :=
  | Update (idx val : Z)
  | Range (left right : Z).

Fixpoint run_no_cache (array : list Z) (queries : list Operation)
    : outcome (list Z * list Z) :=
  match queries with
  | [] => Returns ([], array)
  | Range l r :: qs =>
      v ← range_sum_no_cache array l r;
      '(vs, a) ← run_no_cache array qs;
      Returns (v :: vs, a)
  | Update i x :: qs =>
      array' ← update_no_cache array i x;
      run_no_cache array' qs
  end.

Fixpoint run_with_cache (array : list Z) (c : LRUCache)
    (queries : list Operation) : outcome (list Z * (list Z * LRUCache)) :=
  match queries with
  | [] => Returns ([], (array, c))
  | Range l r :: qs =>
      '(v, c') ← range_sum_with_cache array l r c;
      '(vs, st) ← run_with_cache array c' qs;
      Returns (v :: vs, st)
  | Update i x :: qs =>
      '(array', c') ← update_with_cache array i x c;
      run_with_cache array' c' qs
  end.

(** A query with in-bounds arguments for an array of length [n]. *)
Definition valid_op (n : Z) (q : Operation) : Prop :=
  match q with
  | Range l r => 0 ≤ l ∧ l ≤ r ∧ r < n
  | Update i _ => 0 ≤ i ∧ i < n
  end.

(** Every cached entry belongs to an in-bounds range of [array] and holds
    the sum that the uncached scan computes for it now. *)
Definition coherent (array : list Z) (c : LRUCache) : Prop :=
  Forall (λ e : key * Z,
            0 ≤ e.1.1 ∧ e.1.1 ≤ e.1.2 ∧ e.1.2 < Z.of_nat (length array) ∧
            e.2 = sum (list_slice array e.1.1 (e.1.2 + 1)))
         (cache c).

(** ** Call sequences on one cache *)

Inductive call :=
  | Get (k : key)
  | Put (k : key) (v : Z).

Definition do_call (c : LRUCache) (op : call) : LRUCache :=
  match op with
  | Get k => (get c k).2
  | Put k v => put c k v
  end.

(** The cache after every call of a sequence, in order. *)
Fixpoint states (c : LRUCache) (ops : list call) : list LRUCache :=
  match ops with
  | [] => []
  | op :: ops' => do_call c op :: states (do_call c op) ops'
  end.

Definition run_calls (c : LRUCache) (ops : list call) : LRUCache :=
  foldl do_call c ops.

(** [n] calls of [get] on one key in a row: the values returned, in order,
    and the cache afterwards. *)
Fixpoint get_times (n : nat) (c : LRUCache) (k : key) : list Z * LRUCache :=
  match n with
  | O => ([], c)
  | S n' =>
      let '(v, c1) := get c k in
      let '(vs, c2) := get_times n' c1 k in
      (v :: vs, c2)
  end.

(** The key a call touches: every [put] touches its key, a [get] touches
    its key when it hits. *)
Definition touched (c : LRUCache) (op : call) : list key :=
  match op with
  | Get k => if OrderedDict.contains k (cache c) then [k] else []
  | Put k _ => [k]
  end.

(** The keys touched by a sequence of calls, oldest first. *)
Fixpoint touches (c : LRUCache) (ops : list call) : list key :=
  match ops with
  | [] => []
  | op :: ops' => touched c op ++ touches (do_call c op) ops'
  end.

(** Touching [k] makes it the most recent of the distinct keys seen. *)
Definition bump (r : list key) (k : key) : list key :=
  filter (λ x, x ≠ k) r ++ [k].

(** The distinct keys of a touch sequence, ordered by their last touch. *)
Definition recency (ts : list key) : list key := foldl bump [] ts.

(** The last [n] elements of a list. *)
Definition lastn {A} (n : nat) (l : list A) : list A :=
  drop (length l - n)%nat l.

(** ** The random module

    The random source is a tape of raw draws, read one cell at a time; any
    sequence of outcomes of Python's generator is some tape. *)

Record Random := mkRandom {
  tape : nat → Z;
  pos : nat
}.

Definition draw (g : Random) : Z * Random :=
  (tape g (pos g), {| tape := tape g; pos := S (pos g) |}).

(** [random._randbelow(k)], for [k > 0]: any integer of [0, k). *)
Definition randbelow (k : Z) (g : Random) : Z * Random :=
  let '(x, g') := draw g in (x `mod` k, g').

(** [random.randint(a, b)]: any integer of [a, b], both ends included;
    an empty range raises [ValueError]. *)
Definition randint (a b : Z) (g : Random) : outcome (Z * Random) :=
  if b <? a then Raises ValueError
  else let '(x, g') := randbelow (b - a + 1) g in Returns (a + x, g').

(** [random.random()]: a multiple of 2^-53 in [0, 1). *)
Definition random (g : Random) : Q * Random :=
  let '(x, g') := draw g in (Qmake (x `mod` 2 ^ 53) (2 ^ 53), g').

(** [random.choice(seq)]: [IndexError] on an empty sequence. *)
Definition choice {A} (seq : list A) (g : Random) : outcome (A * Random) :=
  match seq with
  | [] => Raises IndexError
  | a :: _ =>
      let '(i, g') := randbelow (Z.of_nat (length seq)) g in
      Returns (default a (seq !! Z.to_nat i), g')
  end.

(** [x < p] on rationals. *)
Definition Qltb (x p : Q) : bool := negb (Qle_bool p x).

(** ** make_queries *)

(** The comprehension that builds the hot pool: [count] pairs, the left
    end drawn before the right one. *)
Fixpoint make_hot (n : Z) (count : nat) (g : Random)
    : outcome (list key * Random) :=
  match count with
  | O => Returns ([], g)
  | S count' =>
      '(l, g1) ← randint 0 (n `div` 2) g;
      '(r, g2) ← randint (n `div` 2) (n - 1) g1;
      '(hot, g3) ← make_hot n count' g2;
      Returns ((l, r) :: hot, g3)
  end.

(** The loop that appends [count] queries. *)
Fixpoint make_ops (n : Z) (hot : list key) (p_hot p_update : Q)
    (count : nat) (g : Random) : outcome (list Operation * Random) :=
  match count with
  | O => Returns ([], g)
  | S count' =>
      let '(u, g1) := random g in
      '(q, g2) ←
        (if Qltb u p_update then
           '(idx, g2) ← randint 0 (n - 1) g1;
           '(val, g3) ← randint 1 100 g2;
           Returns (Update idx val, g3)
         else
           let '(h, g2) := random g1 in
           if Qltb h p_hot then
             '(lr, g3) ← choice hot g2;
             Returns (Range lr.1 lr.2, g3)
           else
             '(left_, g3) ← randint 0 (n - 1) g2;
             '(right_, g4) ← randint left_ (n - 1) g3;
             Returns (Range left_ right_, g4));
      '(qs, g3) ← make_ops n hot p_hot p_update count' g2;
      Returns (q :: qs, g3)
  end.

Definition make_queries (n q hot_pool : Z) (p_hot p_update : Q) (g : Random)
    : outcome (list Operation * Random) :=
  '(hot, g1) ← make_hot n (Z.to_nat hot_pool) g;
  make_ops n hot p_hot p_update (Z.to_nat q) g1.

(** ** class SlidingWindowRateLimiter (task_2.py)

    Time stamps are Python floats read from [time.time()].  The clock
    readings are arguments of the methods, one per call of [time.time()] in
    the source, and the float operations the class uses form an interface
    about which nothing is assumed. *)

Class FloatOps (T : Type) := {
  fsub : T → T → T;      (* a - b *)
  fadd : T → T → T;      (* a + b *)
  fle : T → T → bool;    (* a <= b *)
  fgt : T → T → bool;    (* a > b *)
  fzero : T              (* 0.0 *)
}.

Record SlidingWindowRateLimiter (T : Type) := mkLimiter {
  window_size : T;
  max_requests : Z;
  user_requests : gmap string (list T)
}.
Arguments mkLimiter {T}.
Arguments window_size {T}.
Arguments max_requests {T}.
Arguments user_requests {T}.

(** [SlidingWindowRateLimiter.__init__] *)
Definition limiter_init {T} (window_size : T) (max_requests : Z)
    : SlidingWindowRateLimiter T :=
  {| window_size := window_size; max_requests := max_requests;
     user_requests := ∅ |}.

(** The [while] loop of [_cleanup_window]: [popleft] as long as the deque is
    not empty and its first stamp is at or before the window start. *)
Fixpoint drop_expired `{FloatOps T} (window_start_time : T)
    (user_timestamps : list T) : list T :=
  match user_timestamps with
  | [] => []
  | t :: rest =>
      if fle t window_start_time then drop_expired window_start_time rest
      else user_timestamps
  end.

(** [_cleanup_window]; the deque is mutated in place, so the dictionary
    sees the shortened deque, and loses the user when it is empty. *)
Definition _cleanup_window `{FloatOps T} (s : SlidingWindowRateLimiter T)
    (user_id : string) (current_time : T) : SlidingWindowRateLimiter T :=
  match user_requests s !! user_id with
  | None => s
  | Some user_timestamps =>
      let window_start_time := fsub current_time (window_size s) in
      let user_timestamps' := drop_expired window_start_time user_timestamps in
      {| window_size := window_size s; max_requests := max_requests s;
         user_requests :=
           match user_timestamps' with
           | [] => delete user_id (user_requests s)
           | _ => <[user_id := user_timestamps']> (user_requests s)
           end |}
  end.

(** The user's window after [_cleanup_window]: the stamps the loop keeps,
    or nothing when the user is unknown or no stamp is kept. *)
Definition cleaned `{FloatOps T} (s : SlidingWindowRateLimiter T)
    (user_id : string) (current_time : T) : option (list T) :=
  match user_requests s !! user_id with
  | None => None
  | Some ts =>
      match drop_expired (fsub current_time (window_size s)) ts with
      | [] => None
      | ts' => Some ts'
      end
  end.

(** [can_send_message], given the reading of the clock. *)
Definition can_send_message `{FloatOps T} (s : SlidingWindowRateLimiter T)
    (user_id : string) (current_time : T) : bool * SlidingWindowRateLimiter T :=
  let s1 := _cleanup_window s user_id current_time in
  (match user_requests s1 !! user_id with
   | None => true
   | Some ts => bool_decide (Z.of_nat (length ts) < max_requests s1)
   end, s1).

(** [record_message]: [check_time] is the reading inside [can_send_message],
    [current_time] the later one that is stored. *)
Definition record_message `{FloatOps T} (s : SlidingWindowRateLimiter T)
    (user_id : string) (check_time current_time : T)
    : bool * SlidingWindowRateLimiter T :=
  let '(ok, s1) := can_send_message s user_id check_time in
  if ok then
    let u1 := match user_requests s1 !! user_id with
              | None => <[user_id := []]> (user_requests s1)
              | Some _ => user_requests s1
              end in
    let u2 := match u1 !! user_id with
              | Some ts => <[user_id := ts ++ [current_time]]> u1
              | None => u1
              end in
    (true, {| window_size := window_size s1; max_requests := max_requests s1;
              user_requests := u2 |})
  else (false, s1).

(** [time_until_next_allowed]; reading the first stamp of an empty deque
    would raise [IndexError]. *)
Definition time_until_next_allowed `{FloatOps T}
    (s : SlidingWindowRateLimiter T) (user_id : string) (current_time : T)
    : outcome (T * SlidingWindowRateLimiter T) :=
  let s1 := _cleanup_window s user_id current_time in
  match user_requests s1 !! user_id with
  | None => Returns (fzero, s1)
  | Some ts =>
      if bool_decide (Z.of_nat (length ts) < max_requests s1)
      then Returns (fzero, s1)
      else
        match ts with
        | [] => Raises IndexError
        | oldest_request_time :: _ =>
            let next_allowed_time := fadd oldest_request_time (window_size s1) in
            let wait_time := fsub next_allowed_time current_time in
            Returns (if fgt wait_time fzero then wait_time else fzero, s1)
        end
  end.

(** A call of one of the three public methods, with its clock readings. *)
Inductive limiter_call (T : Type) :=
  | CanSend (user_id : string) (current_time : T)
  | Record (user_id : string) (check_time current_time : T)
  | TimeUntil (user_id : string) (current_time : T).
Arguments CanSend {T}.
Arguments Record {T}.
Arguments TimeUntil {T}.

Definition call_user {T} (op : limiter_call T) : string :=
  match op with
  | CanSend u _ | Record u _ _ | TimeUntil u _ => u
  end.

(** The limiter after a call (every method cleans the user's window). *)
Definition limiter_step `{FloatOps T} (s : SlidingWindowRateLimiter T)
    (op : limiter_call T) : SlidingWindowRateLimiter T :=
  match op with
  | CanSend u t => (can_send_message s u t).2
  | Record u t1 t2 => (record_message s u t1 t2).2
  | TimeUntil u t => _cleanup_window s u t
  end.

(** Every stored window is non-empty and holds at most [max_requests]
    stamps (one, when [max_requests] is smaller than that). *)
Definition windows_bounded {T} (s : SlidingWindowRateLimiter T) : Prop :=
  ∀ u ts, user_requests s !! u = Some ts →
    ts ≠ [] ∧ Z.of_nat (length ts) ≤ Z.max (max_requests s) 1.

(** Integer clocks, for running the limiter on examples. *)
Definition Z_float_ops : FloatOps Z :=
  {| fsub := Z.sub; fadd := Z.add; fle := Z.leb; fgt := Z.gtb; fzero := 0 |}.

(** An update that writes a value of [1, 100]. *)
Definition small_update (q : Operation) : Prop :=
  match q with
  | Update _ val => 1 ≤ val ∧ val ≤ 100
  | Range _ _ => True
  end.

(** * Properties *)

(** ** Facts about the dictionary operations *)

Section dict_facts.
Import OrderedDict.
Implicit Types (d : OrderedDict.t) (k : key) (v : Z) (r : list key).

Lemma contains_true k d : contains k d = true ↔ k ∈ keys d.
Proof. apply bool_decide_eq_true. Qed.

Lemma contains_false k d : contains k d = false ↔ k ∉ keys d.
Proof. apply bool_decide_eq_false. Qed.

Lemma keys_app d1 d2 : keys (d1 ++ d2) = keys d1 ++ keys d2.
Proof. apply fmap_app. Qed.

Lemma getitem_None k d : getitem k d = None ↔ k ∉ keys d.
Proof.
  induction d as [|[k' v] d IH]; simpl.
  - split; [intros _; apply not_elem_of_nil | done].
  - rewrite not_elem_of_cons. fold (keys d). destruct (decide (k' = k)).
    + split; [done | intros [? _]; congruence].
    + rewrite IH. split; [intros; split; [congruence | done] | tauto].
Qed.

Lemma getitem_elem_of k v d : getitem k d = Some v → (k, v) ∈ d.
Proof.
  induction d as [|[k' v'] d IH]; simpl; [done|].
  rewrite elem_of_cons. case_decide; naive_solver.
Qed.

Lemma getitem_is_Some k d : k ∈ keys d → is_Some (getitem k d).
Proof.
  intros Hk. destruct (getitem k d) eqn:E; [eauto|].
  by apply getitem_None in E.
Qed.

Lemma getitem_app_notin k d1 d2 :
  k ∉ keys d1 → getitem k (d1 ++ d2) = getitem k d2.
Proof.
  induction d1 as [|[k' v'] d1 IH]; simpl; [done|].
  rewrite not_elem_of_cons. intros [? ?]. case_decide; [congruence | auto].
Qed.

Lemma keys_delitem k d : keys (delitem k d) = filter (λ x, x ≠ k) (keys d).
Proof.
  unfold delitem, keys. induction d as [|[k' v'] d IH]; [done|].
  rewrite fmap_cons. simpl. destruct (decide (k' = k)) as [->|Hne].
  - rewrite (filter_cons_False (λ x, x ≠ k)) by naive_solver.
    by rewrite (filter_cons_False (λ e : key * Z, e.1 ≠ k))
      by (simpl; naive_solver).
  - rewrite (filter_cons_True (λ x, x ≠ k)) by naive_solver.
    rewrite (filter_cons_True (λ e : key * Z, e.1 ≠ k)) by done.
    rewrite fmap_cons. simpl. f_equal. exact IH.
Qed.

Lemma delitem_notin k d : k ∉ keys d → delitem k d = d.
Proof.
  unfold delitem, keys. induction d as [|[k' v'] d IH]; [done|].
  rewrite fmap_cons, not_elem_of_cons. intros [? ?].
  rewrite filter_cons_True by (simpl in *; congruence). by rewrite IH.
Qed.

Lemma not_elem_of_keys_delitem k d : k ∉ keys (delitem k d).
Proof. rewrite keys_delitem, list_elem_of_filter. by intros [? _]. Qed.

Lemma getitem_delitem_ne k k' d :
  k ≠ k' → getitem k (delitem k' d) = getitem k d.
Proof.
  intros Hne. unfold delitem. induction d as [|[k1 v1] d IH]; [done|].
  rewrite filter_cons. simpl. repeat (case_decide; simpl); congruence.
Qed.

Lemma length_delitem k d : (length (delitem k d) ≤ length d)%nat.
Proof. apply length_filter. Qed.

Lemma length_delitem_in k d :
  k ∈ keys d → (length (delitem k d) < length d)%nat.
Proof.
  intros ([k' v] & -> & Hin)%list_elem_of_fmap.
  apply (length_filter_lt _ _ _ Hin). simpl. naive_solver.
Qed.

Lemma filter_ne_notin k r : k ∉ r → filter (λ x, x ≠ k) r = r.
Proof.
  induction r as [|x r IH]; [done|].
  rewrite not_elem_of_cons. intros [? ?].
  rewrite filter_cons_True by done. by rewrite IH.
Qed.

Lemma length_filter_ne_in k r :
  NoDup r → k ∈ r → S (length (filter (λ x, x ≠ k) r)) = length r.
Proof.
  intros Hnd (r1 & r2 & ->)%list_elem_of_split.
  apply NoDup_app in Hnd as (_ & H1 & (H2 & _)%NoDup_cons).
  rewrite filter_app, filter_cons_False by naive_solver.
  rewrite !filter_ne_notin; [|done|].
  - rewrite !length_app. simpl. lia.
  - intros Hk. apply (H1 k Hk). left.
Qed.

Lemma keys_move_to_end k d :
  k ∈ keys d → keys (move_to_end k d) = bump (keys d) k.
Proof.
  intros [v Hv]%getitem_is_Some. unfold move_to_end, bump.
  by rewrite Hv, keys_app, keys_delitem.
Qed.

Lemma length_move_to_end k d :
  (length (move_to_end k d) ≤ length d)%nat.
Proof.
  unfold move_to_end. destruct (getitem k d) as [v|] eqn:Hv; [|done].
  assert (k ∈ keys d) as Hk.
  { destruct (decide (k ∈ keys d)) as [|Hn]; [done|].
    apply getitem_None in Hn. congruence. }
  pose proof (length_delitem_in k d Hk).
  rewrite length_app. simpl. lia.
Qed.

Lemma elem_of_keys_move_to_end k k' d :
  k' ∈ keys (move_to_end k d) ↔ k' ∈ keys d.
Proof.
  unfold move_to_end. destruct (getitem k d) as [v|] eqn:Hv; [|done].
  apply getitem_elem_of in Hv.
  assert (k ∈ keys d) by (apply list_elem_of_fmap; by exists (k, v)).
  rewrite keys_app, keys_delitem, elem_of_app, list_elem_of_filter.
  unfold keys at 2. simpl. rewrite list_elem_of_singleton.
  destruct (decide (k' = k)) as [->|Hne]; [tauto|].
  split; [intros [[_ ?]|?]; [done | congruence] | intros; left; done].
Qed.

Lemma keys_setitem_in k v d : k ∈ keys d → keys (setitem k v d) = keys d.
Proof.
  intros Hk. unfold setitem. apply contains_true in Hk. rewrite Hk.
  unfold keys. rewrite <- list_fmap_compose. apply list_fmap_ext.
  intros ? [k' v'] _. simpl. by case_decide.
Qed.

Lemma keys_setitem_notin k v d :
  k ∉ keys d → keys (setitem k v d) = keys d ++ [k].
Proof.
  intros Hk. unfold setitem. apply contains_false in Hk. rewrite Hk.
  by rewrite keys_app.
Qed.

Lemma length_keys d : length (keys d) = length d.
Proof. apply length_fmap. Qed.

Lemma length_setitem_in k v d :
  k ∈ keys d → length (setitem k v d) = length d.
Proof.
  intros Hk. by rewrite <- !length_keys, keys_setitem_in.
Qed.

Lemma getitem_setitem k v d : getitem k (setitem k v d) = Some v.
Proof.
  unfold setitem. destruct (contains k d) eqn:Hc.
  - apply contains_true in Hc.
    induction d as [|[k1 v1] d IH]; [by apply elem_of_nil in Hc|].
    simpl. case_decide; simpl; [by rewrite decide_True|].
    rewrite decide_False by done. apply IH.
    unfold keys in Hc. rewrite fmap_cons in Hc.
    apply elem_of_cons in Hc as [?|?]; [simpl in *; congruence | done].
  - apply contains_false in Hc. rewrite getitem_app_notin by done.
    simpl. by rewrite decide_True.
Qed.

End dict_facts.

(** ** Facts about [get] and [put] *)

Section cache_facts.
Import OrderedDict.
Implicit Types (c : LRUCache) (k : key) (v : Z).

Lemma get_miss c k : k ∉ keys (cache c) → get c k = (-1, c).
Proof. intros Hk. unfold get. apply contains_false in Hk. by rewrite Hk. Qed.

Lemma get_hit c k v :
  getitem k (cache c) = Some v →
  get c k = (v, {| cache := (delitem k (cache c) ++ [(k, v)]);
                   capacity := capacity c |}).
Proof.
  intros Hv. unfold get, move_to_end.
  assert (k ∈ keys (cache c)) as Hk.
  { apply getitem_elem_of in Hv. apply list_elem_of_fmap. by exists (k, v). }
  apply contains_true in Hk. rewrite Hk, Hv. simpl.
  rewrite getitem_app_notin by apply not_elem_of_keys_delitem.
  simpl. by rewrite decide_True.
Qed.

Lemma get_cases c k :
  ((k ∉ keys (cache c)) ∧ get c k = (-1, c)) ∨
  (∃ v, getitem k (cache c) = Some v ∧
        get c k = (v, {| cache := (delitem k (cache c) ++ [(k, v)]);
                         capacity := capacity c |})).
Proof.
  destruct (getitem k (cache c)) as [v|] eqn:Hv.
  - right. exists v. split; [done | by apply get_hit].
  - left. apply getitem_None in Hv. split; [done | by apply get_miss].
Qed.

Lemma capacity_get c k : capacity (get c k).2 = capacity c.
Proof. unfold get. by destruct (negb _). Qed.

Lemma capacity_put c k v : capacity (put c k v) = capacity c.
Proof. done. Qed.

Lemma size_get_le c k : (size (get c k).2 ≤ size c)%nat.
Proof.
  unfold get, size. destruct (negb _); simpl; [done|].
  apply length_move_to_end.
Qed.

Lemma size_get c k : wf (cache c) → size (get c k).2 = size c.
Proof.
  intros Hwf. destruct (get_cases c k) as [[_ ->]|(v & Hv & ->)]; [done|].
  unfold size. simpl. rewrite <- !length_keys, keys_app, keys_delitem.
  assert (k ∈ keys (cache c)) as Hk.
  { apply getitem_elem_of in Hv. apply list_elem_of_fmap. by exists (k, v). }
  pose proof (length_filter_ne_in k _ Hwf Hk).
  rewrite length_app. simpl. lia.
Qed.

Lemma wf_get c k : wf (cache c) → wf (cache (get c k).2).
Proof.
  intros Hwf. destruct (get_cases c k) as [[_ ->]|(v & Hv & ->)]; [done|].
  unfold wf. simpl. rewrite keys_app, keys_delitem.
  apply NoDup_app. split_and!.
  - by apply NoDup_filter.
  - intros x [Hx _]%list_elem_of_filter ->%list_elem_of_singleton. done.
  - apply NoDup_singleton.
Qed.

(** A second [get] of the same key finds the entry already last. *)
Lemma get_get c k : get (get c k).2 k = ((get c k).1, (get c k).2).
Proof.
  destruct (get_cases c k) as [[Hk E]|(v & Hv & E)]; rewrite E; simpl.
  - by apply get_miss.
  - erewrite get_hit; simpl.
    + f_equal. f_equal. unfold delitem at 1. rewrite filter_app.
      fold (delitem k (delitem k (cache c))).
      rewrite delitem_notin by apply not_elem_of_keys_delitem.
      rewrite (filter_cons_False (λ e : key * Z, e.1 ≠ k)) by (simpl; tauto).
      by rewrite filter_nil, app_nil_r.
    + rewrite getitem_app_notin by apply not_elem_of_keys_delitem.
      simpl. by rewrite decide_True.
Qed.

(** The dictionary before the eviction test of [put] has at most one
    entry more than before the call. *)
Lemma size_put_le c k v :
  Z.of_nat (size c) ≤ capacity c → Z.of_nat (size (put c k v)) ≤ capacity c.
Proof.
  unfold put, size. simpl. intros Hle.
  set (d1 := if contains k (cache c) then _ else _).
  assert (length (setitem k v d1) ≤ S (length (cache c)))%nat as Hd2.
  { subst d1. destruct (contains k (cache c)) eqn:Hc.
    - apply contains_true in Hc.
      rewrite length_setitem_in by by apply elem_of_keys_move_to_end.
      pose proof (length_move_to_end k (cache c)). lia.
    - unfold setitem. rewrite Hc, length_app. simpl. lia. }
  destruct (Z.gtb_spec (Z.of_nat (length (setitem k v d1))) (capacity c)).
  - unfold popitem_first. rewrite length_drop. lia.
  - lia.
Qed.

(** [put] in one piece: the entry becomes the last one, then the oldest
    entry goes if the dictionary has outgrown the capacity. *)
Lemma cache_put c k v :
  cache (put c k v)
  = let d2 := delitem k (cache c) ++ [(k, v)] in
    if Z.of_nat (length d2) >? capacity c then drop 1 d2 else d2.
Proof.
  unfold put. simpl.
  set (d1 := if contains k (cache c) then _ else _).
  assert (setitem k v d1 = delitem k (cache c) ++ [(k, v)]) as ->; [|done].
  subst d1. destruct (contains k (cache c)) eqn:Hc.
  - apply contains_true in Hc.
    destruct (getitem_is_Some _ _ Hc) as [v0 Hv0].
    unfold setitem.
    assert (contains k (move_to_end k (cache c)) = true) as ->.
    { apply contains_true. by apply elem_of_keys_move_to_end. }
    unfold move_to_end. rewrite Hv0, fmap_app. simpl.
    rewrite decide_True by done. f_equal.
    pose proof (not_elem_of_keys_delitem k (cache c)) as Hn.
    induction (delitem k (cache c)) as [|[k1 v1] d IH]; [done|].
    unfold keys in Hn. rewrite fmap_cons, not_elem_of_cons in Hn.
    destruct Hn as [Hne Hn]. rewrite fmap_cons. simpl in *.
    rewrite decide_False by congruence. f_equal. by apply IH.
  - unfold setitem. rewrite Hc. apply contains_false in Hc.
    by rewrite delitem_notin.
Qed.

End cache_facts.

(** The scenario of the specification: capacity 2. *)
Example scenario_eviction :
  let c0 := {| cache := []; capacity := 2 |} in
  let c3 := put (put (put c0 (0,2) 10) (1,3) 20) (2,4) 30 in
  cache c3 = [((1,3), 20); ((2,4), 30)] ∧
  (get c3 (1,3)).1 = 20 ∧
  cache (put (get c3 (1,3)).2 (5,6) 40) = [((1,3), 20); ((5,6), 40)].
Proof. vm_compute. done. Qed.

Example scenario_invalidation :
  let c := {| cache := [((1,3), 9)]; capacity := 2 |} in
  ∃ c', update_with_cache [1;2;3;4;5] 2 100 c = Returns ([1;2;100;4;5], c') ∧
        cache c' = [] ∧
        range_sum_with_cache [1;2;100;4;5] 1 3 c'
          = Returns (106, {| cache := [((1,3), 106)]; capacity := 2 |}).
Proof. eexists. vm_compute. done. Qed.

(** ** Capacity *)

Lemma states_within_capacity (K : Z) (ops : list call) (c : LRUCache) :
  capacity c = K → Z.of_nat (size c) ≤ K →
  Forall (λ c', Z.of_nat (size c') ≤ K ∧ capacity c' = K) (states c ops).
Proof.
  revert c. induction ops as [|op ops IH]; intros c Hcap Hsz; simpl.
  - constructor.
  - assert (Z.of_nat (size (do_call c op)) ≤ K ∧ capacity (do_call c op) = K)
      as [Hsz' Hcap'].
    { destruct op as [k|k v]; unfold do_call.
      - rewrite capacity_get. pose proof (size_get_le c k). lia.
      - rewrite capacity_put. split; [|done]. subst K. by apply size_put_le. }
    constructor; [done | by apply IH].
Qed.

(** C3. A cache constructed with a positive capacity holds at most that many
    entries after every call of any sequence of [put] and [get] calls. *)
Theorem capacity_invariant (K : Z) (ops : list call) :
  0 < K →
  ∃ c0, init K = Returns c0 ∧
        Forall (λ c, Z.of_nat (size c) ≤ K ∧ capacity c = K) (states c0 ops).
Proof.
  intros HK. eexists. split; [reflexivity|].
  apply states_within_capacity; [done | unfold size; simpl; lia].
Qed.

Lemma capacity_invariant_witness :
  ∃ c0, init 2 = Returns c0 ∧
        Forall (λ c, Z.of_nat (size c) ≤ 2 ∧ capacity c = 2)
          (states c0 [Put (0,2) 10; Put (1,3) 20; Put (2,4) 30; Get (1,3);
                      Put (5,6) 40]).
Proof. apply (capacity_invariant 2); lia. Defined.

(** ** Repeated [get] *)

Lemma get_times_stable (n : nat) (c : LRUCache) (k : key) :
  get_times n (get c k).2 k = (replicate n (get c k).1, (get c k).2).
Proof.
  induction n as [|n IH]; [done|].
  simpl. rewrite get_get, IH. done.
Qed.

(** C10. Calling [get] on one key any number of times in a row returns the
    same value every time and leaves the number of entries as it was. *)
Theorem get_idempotent (n : nat) (c : LRUCache) (k : key) :
  OrderedDict.wf (cache c) →
  (get_times n c k).1 = replicate n (get c k).1 ∧
  size (get_times n c k).2 = size c.
Proof.
  intros Hwf. destruct n as [|n]; [done|].
  simpl. destruct (get c k) as [v c1] eqn:E.
  replace c1 with (get c k).2 by by rewrite E.
  replace v with (get c k).1 by by rewrite E.
  rewrite get_times_stable. simpl. split; [done | by apply size_get].
Qed.

Lemma get_idempotent_witness :
  let c := {| cache := [((0,2), 10); ((1,3), 20)]; capacity := 2 |} in
  (get_times 3 c (0,2)).1 = replicate 3 (get c (0,2)).1 ∧
  size (get_times 3 c (0,2)).2 = size c.
Proof.
  apply (get_idempotent 3). unfold OrderedDict.wf. simpl.
  apply NoDup_cons. split; [|apply NoDup_singleton].
  rewrite list_elem_of_singleton. discriminate.
Defined.

(** ** Invalidation by [update_with_cache] *)

Section invalidation.
Import OrderedDict.

Lemma filter_ext_elem_of {A} (P Q : A → Prop)
    `{!∀ x, Decision (P x), !∀ x, Decision (Q x)} (l : list A) :
  (∀ x, x ∈ l → (P x ↔ Q x)) → filter P l = filter Q l.
Proof.
  induction l as [|a l IH]; intros HPQ; [done|].
  assert (filter P l = filter Q l) as IH'.
  { apply IH. intros x Hx. apply HPQ. by right. }
  destruct (decide (P a)) as [HP|HP].
  - rewrite !filter_cons_True; [by rewrite IH' | | done].
    apply HPQ; [left | done].
  - rewrite !filter_cons_False; [done | | done].
    intros HQ. apply HP, HPQ; [left | done].
Qed.

(** The deletion loop removes exactly the entries whose key was listed. *)
Lemma delete_loop (ks : list key) (d : OrderedDict.t) :
  foldl (λ d k, if contains k d then delitem k d else d) d ks
  = filter (λ e, e.1 ∉ ks) d.
Proof.
  revert d. induction ks as [|k ks IH]; intros d; simpl.
  - symmetry. induction d as [|e d IHd]; [done|].
    rewrite filter_cons_True by apply not_elem_of_nil. by rewrite IHd.
  - assert ((if contains k d then delitem k d else d) = delitem k d) as ->.
    { destruct (contains k d) eqn:Hc; [done|].
      apply contains_false in Hc. by rewrite delitem_notin. }
    rewrite IH. unfold delitem. rewrite list_filter_filter.
    apply list_filter_iff. intros e. rewrite not_elem_of_cons. tauto.
Qed.

Lemma update_with_cache_returns (array : list Z) (index value : Z)
    (c : LRUCache) :
  0 ≤ index < Z.of_nat (length array) →
  update_with_cache array index value c
  = Returns (<[Z.to_nat index := value]> array,
             {| cache := filter (λ e, ¬ (e.1.1 ≤ index ∧ index ≤ e.1.2))
                                (cache c);
                capacity := capacity c |}).
Proof.
  intros Hi. unfold update_with_cache, list_setitem.
  destruct (Z.ltb_spec index 0); [lia|].
  destruct (Z.ltb_spec index 0); [lia|].
  destruct (Z.leb_spec (Z.of_nat (length array)) index); [lia|].
  simpl. do 3 f_equal. rewrite delete_loop.
  apply filter_ext_elem_of. intros e He.
  unfold get_all_keys. rewrite list_elem_of_filter.
  assert (e.1 ∈ keys (cache c)) by by apply list_elem_of_fmap_2.
  tauto.
Qed.

Lemma getitem_filter_keep (P : key * Z → Prop) `{!∀ e, Decision (P e)}
    (k : key) (d : OrderedDict.t) :
  (∀ v, P (k, v)) → getitem k (filter P d) = getitem k d.
Proof.
  intros HP. induction d as [|[k' v'] d IH]; [done|].
  destruct (decide (P (k', v'))) as [HP'|HP'].
  - rewrite filter_cons_True by done. simpl. by rewrite IH.
  - rewrite filter_cons_False by done. simpl.
    rewrite decide_False; [done|]. intros ->. by apply HP'.
Qed.

End invalidation.

(** C2. After a point update with an in-bounds index, no cached range
    covers the index: [get] on such a range reports absence and the next
    range query on it takes the miss branch and sums the updated array. *)
Theorem invalidation_soundness (array : list Z) (index value : Z)
    (c : LRUCache) :
  0 ≤ index < Z.of_nat (length array) →
  ∃ array' c',
    update_with_cache array index value c = Returns (array', c') ∧
    ∀ l r, l ≤ index ≤ r →
      ((l, r) ∉ get_all_keys c') ∧
      get c' (l, r) = (-1, c') ∧
      range_sum_with_cache_path array' l r c'
      = (CacheMiss, sum (list_slice array' l (r + 1)),
         put c' (l, r) (sum (list_slice array' l (r + 1)))).
Proof.
  intros Hi. eexists _, _. split; [by apply update_with_cache_returns|].
  intros l r Hlr.
  match goal with |- (?k ∉ get_all_keys ?c') ∧ _ =>
    assert (k ∉ get_all_keys c') as Hk end.
  { unfold get_all_keys. simpl.
    intros ([k v] & Hkv & [Hcov _]%list_elem_of_filter)%list_elem_of_fmap.
    simpl in *. subst k. apply Hcov. simpl. lia. }
  split; [done|]. split; [by apply get_miss|].
  unfold range_sum_with_cache_path. by rewrite get_miss.
Qed.

Lemma invalidation_soundness_witness :
  ∃ array' c',
    update_with_cache [1;2;3;4;5] 2 100
      {| cache := [((1,3), 9); ((3,4), 9)]; capacity := 2 |}
    = Returns (array', c') ∧
    ∀ l r, l ≤ 2 ≤ r →
      ((l, r) ∉ get_all_keys c') ∧
      get c' (l, r) = (-1, c') ∧
      range_sum_with_cache_path array' l r c'
      = (CacheMiss, sum (list_slice array' l (r + 1)),
         put c' (l, r) (sum (list_slice array' l (r + 1)))).
Proof. apply (invalidation_soundness [1;2;3;4;5] 2 100). simpl. lia. Defined.

(** C5. After a point update with an in-bounds index, every range cached
    before the call that does not cover the index is still cached, with the
    value it had. *)
Theorem invalidation_precision (array : list Z) (index value : Z)
    (c : LRUCache) :
  0 ≤ index < Z.of_nat (length array) →
  ∃ array' c',
    update_with_cache array index value c = Returns (array', c') ∧
    ∀ l r v, OrderedDict.getitem (l, r) (cache c) = Some v →
      index < l ∨ r < index →
      (l, r) ∈ get_all_keys c' ∧
      OrderedDict.getitem (l, r) (cache c') = Some v.
Proof.
  intros Hi. eexists _, _. split; [by apply update_with_cache_returns|].
  intros l r v Hv Hout. simpl.
  assert (OrderedDict.getitem (l, r)
            (filter (λ e : key * Z, ¬ (e.1.1 ≤ index ∧ index ≤ e.1.2)) (cache c))
          = Some v) as Hv'.
  { rewrite <- Hv. apply getitem_filter_keep. intros v'. simpl. lia. }
  split; [|done].
  apply getitem_elem_of in Hv'. unfold get_all_keys. simpl.
  apply list_elem_of_fmap. by exists ((l, r), v).
Qed.

Lemma invalidation_precision_witness :
  ∃ array' c',
    update_with_cache [1;2;3;4;5] 2 100
      {| cache := [((1,3), 9); ((3,4), 9)]; capacity := 2 |}
    = Returns (array', c') ∧
    (3, 4) ∈ get_all_keys c' ∧
    OrderedDict.getitem (3, 4) (cache c') = Some 9.
Proof.
  destruct (invalidation_precision [1;2;3;4;5] 2 100
              {| cache := [((1,3), 9); ((3,4), 9)]; capacity := 2 |})
    as (array' & c' & Hup & Hkeep); [simpl; lia|].
  exists array', c'. split; [exact Hup|].
  apply (Hkeep 3 4 9); [reflexivity | lia].
Defined.

(** ** The absence sentinel *)

Section sentinel.
Import OrderedDict.

Lemma get_hidden k c : hidden k c → (get c k).1 = -1.
Proof.
  intros Hh. destruct (get_cases c k) as [[_ ->]|(v & Hv & ->)]; [done|].
  simpl. by apply Hh.
Qed.

Lemma getitem_put_cases c k v v' :
  getitem k (cache (put c k v)) = Some v' → v' = v.
Proof.
  rewrite cache_put. simpl.
  pose proof (not_elem_of_keys_delitem k (cache c)) as Hn.
  destruct (_ >? _).
  - destruct (delitem k (cache c)) as [|e d]; simpl; [done|].
    unfold keys in Hn. rewrite fmap_cons, not_elem_of_cons in Hn.
    rewrite drop_0, getitem_app_notin by tauto. simpl.
    rewrite decide_True by done. congruence.
  - rewrite getitem_app_notin by done. simpl.
    rewrite decide_True by done. congruence.
Qed.

Lemma getitem_put_cached c k v :
  0 < capacity c → getitem k (cache (put c k v)) = Some v.
Proof.
  intros Hcap. rewrite cache_put. simpl.
  pose proof (not_elem_of_keys_delitem k (cache c)) as Hn.
  destruct (Z.gtb_spec (Z.of_nat (length (delitem k (cache c) ++ [(k, v)])))
              (capacity c)) as [Hgt|_].
  - destruct (delitem k (cache c)) as [|e d]; [simpl in Hgt; lia|].
    unfold keys in Hn. rewrite fmap_cons, not_elem_of_cons in Hn. simpl.
    rewrite drop_0, getitem_app_notin by tauto. simpl.
    by rewrite decide_True.
  - rewrite getitem_app_notin by done. simpl. by rewrite decide_True.
Qed.

Lemma query_hidden array l r c :
  sum (list_slice array l (r + 1)) = -1 → hidden (l, r) c →
  range_sum_with_cache_path array l r c
  = (CacheMiss, -1, put (get c (l, r)).2 (l, r) (-1)).
Proof.
  intros Hsum Hh. unfold range_sum_with_cache_path.
  pose proof (get_hidden _ _ Hh) as Hg.
  destruct (get c (l, r)) as [v c1]. simpl in Hg. subst v. simpl.
  by rewrite Hsum.
Qed.

Lemma range_sum_times_hidden n array l r c :
  sum (list_slice array l (r + 1)) = -1 → hidden (l, r) c →
  (range_sum_times n array l r c).1 = replicate n (CacheMiss, -1).
Proof.
  intros Hsum. revert c. induction n as [|n IH]; intros c Hh; [done|].
  simpl. rewrite query_hidden by done.
  specialize (IH (put (get c (l, r)).2 (l, r) (-1))).
  destruct (range_sum_times n array l r _) as [pvs c2]. simpl in *.
  f_equal. apply IH. intros v. apply getitem_put_cases.
Qed.

End sentinel.

(** C8. [get] answers -1 for an absent key and also for a key cached with
    the value -1; so a range whose sum is -1 is answered through the miss
    branch on every query, also right after it has been stored. *)
Theorem sentinel_collision :
  (∀ c k, k ∉ get_all_keys c → get c k = (-1, c)) ∧
  (∃ c k, k ∈ get_all_keys c ∧
          OrderedDict.getitem k (cache c) = Some (-1) ∧ (get c k).1 = -1) ∧
  (∀ array l r c n,
     sum (list_slice array l (r + 1)) = -1 →
     (l, r) ∉ get_all_keys c ∨
       OrderedDict.getitem (l, r) (cache c) = Some (-1) →
     (range_sum_times n array l r c).1 = replicate n (CacheMiss, -1) ∧
     ∃ c', range_sum_with_cache_path array l r c = (CacheMiss, -1, c') ∧
           (0 < capacity c →
            OrderedDict.getitem (l, r) (cache c') = Some (-1) ∧
            (range_sum_with_cache_path array l r c').1.1 = CacheMiss)).
Proof.
  split; [intros c k; apply get_miss|]. split.
  - exists {| cache := [((0, 0), -1)]; capacity := 1 |}, (0, 0).
    split; [left | done].
  - intros array l r c n Hsum Hc.
    assert (hidden (l, r) c) as Hh.
    { intros v Hv. destruct Hc as [Hc|Hc]; [|congruence].
      apply getitem_None in Hc. congruence. }
    split; [by apply range_sum_times_hidden|].
    eexists. split; [by apply query_hidden|].
    intros Hcap.
    assert (0 < capacity (get c (l, r)).2) by by rewrite capacity_get.
    split; [by apply getitem_put_cached|].
    rewrite query_hidden; [done | done |].
    intros v. apply getitem_put_cases.
Qed.

Lemma sentinel_collision_witness :
  let c := {| cache := [((0, 1), -1)]; capacity := 2 |} in
  (range_sum_times 3 [2; -3; 5] 0 1 c).1 = replicate 3 (CacheMiss, -1) ∧
  ∃ c', range_sum_with_cache_path [2; -3; 5] 0 1 c = (CacheMiss, -1, c') ∧
        (0 < capacity c →
         OrderedDict.getitem (0, 1) (cache c') = Some (-1) ∧
         (range_sum_with_cache_path [2; -3; 5] 0 1 c').1.1 = CacheMiss).
Proof.
  destruct sentinel_collision as (_ & _ & Hq).
  apply (Hq [2; -3; 5] 0 1 {| cache := [((0, 1), -1)]; capacity := 2 |} 3%nat).
  - reflexivity.
  - right. reflexivity.
Defined.

(** ** The cached service against the uncached one *)

Section equivalence.
Import OrderedDict.

Lemma elem_of_cache_get c k e : e ∈ cache (get c k).2 → e ∈ cache c.
Proof.
  destruct (get_cases c k) as [[_ ->]|(v & Hv & ->)]; [done|]. simpl.
  rewrite elem_of_app, list_elem_of_singleton.
  intros [[_ ?]%list_elem_of_filter | ->]; [done|].
  by apply getitem_elem_of.
Qed.

Lemma get_value c k : (get c k).1 = -1 ∨ (k, (get c k).1) ∈ cache c.
Proof.
  destruct (get_cases c k) as [[_ ->]|(v & Hv & ->)]; [by left|].
  right. by apply getitem_elem_of.
Qed.

Lemma elem_of_cache_put c k v e :
  e ∈ cache (put c k v) → e ∈ cache c ∨ e = (k, v).
Proof.
  rewrite cache_put. simpl. intros He.
  assert (e ∈ delitem k (cache c) ++ [(k, v)]) as He'.
  { destruct (_ >? _); [|done]. by apply (subseteq_drop 1). }
  apply elem_of_app in He' as [[_ ?]%list_elem_of_filter | ?%list_elem_of_singleton];
    [by left | by right].
Qed.

(** A slice with in-bounds ends is the run of elements between them. *)
Lemma list_slice_valid (array : list Z) (l r : Z) :
  0 ≤ l → l ≤ r → r < Z.of_nat (length array) →
  list_slice array l (r + 1)
  = take (Z.to_nat (r + 1 - l)) (drop (Z.to_nat l) array).
Proof.
  intros Hl Hlr Hr. unfold list_slice, slice_index.
  destruct (Z.ltb_spec l 0); [lia|].
  destruct (Z.ltb_spec (r + 1) 0); [lia|].
  by rewrite !Z.min_l by lia.
Qed.

(** Writing outside a range leaves its slice as it was. *)
Lemma list_slice_insert_outside (array : list Z) (l r i x : Z) :
  0 ≤ l → l ≤ r → r < Z.of_nat (length array) →
  0 ≤ i → ¬ (l ≤ i ∧ i ≤ r) →
  list_slice (<[Z.to_nat i := x]> array) l (r + 1)
  = list_slice array l (r + 1).
Proof.
  intros Hl Hlr Hr Hi Hout.
  rewrite !list_slice_valid by (rewrite ?length_insert; lia).
  destruct (Z.lt_ge_cases i l).
  - by rewrite drop_insert_lt by lia.
  - rewrite drop_insert_ge by lia. apply take_insert_ge. lia.
Qed.

Lemma range_sum_coherent (array : list Z) (l r : Z) (c : LRUCache) :
  coherent array c →
  0 ≤ l → l ≤ r → r < Z.of_nat (length array) →
  ∃ c', range_sum_with_cache array l r c
        = Returns (sum (list_slice array l (r + 1)), c') ∧
        coherent array c'.
Proof.
  intros Hco Hl Hlr Hr.
  unfold coherent in Hco. rewrite Forall_forall in Hco.
  unfold range_sum_with_cache, range_sum_with_cache_path.
  pose proof (get_value c (l, r)) as Hval.
  pose proof (elem_of_cache_get c (l, r)) as Hsub.
  destruct (get c (l, r)) as [v c1]. simpl in *.
  destruct (Z.eqb_spec v (-1)) as [->|Hne]; simpl.
  - eexists. split; [done|].
    apply Forall_forall. intros e [He| ->]%elem_of_cache_put.
    + apply Hco. auto.
    + simpl. auto.
  - destruct Hval as [?|Hin]; [done|].
    apply Hco in Hin as (_ & _ & _ & Hv). simpl in Hv. subst v.
    eexists. split; [done|].
    apply Forall_forall. intros e He. apply Hco. auto.
Qed.

Lemma update_coherent (array : list Z) (i x : Z) (c : LRUCache) :
  coherent array c →
  0 ≤ i → i < Z.of_nat (length array) →
  ∃ c', update_no_cache array i x = Returns (<[Z.to_nat i := x]> array) ∧
        update_with_cache array i x c
        = Returns (<[Z.to_nat i := x]> array, c') ∧
        coherent (<[Z.to_nat i := x]> array) c'.
Proof.
  intros Hco Hi Hn. eexists. split_and!.
  - unfold update_no_cache, list_setitem.
    destruct (Z.ltb_spec i 0); [lia|].
    destruct (Z.ltb_spec i 0); [lia|].
    by destruct (Z.leb_spec (Z.of_nat (length array)) i); [lia|].
  - by apply update_with_cache_returns.
  - unfold coherent in *. rewrite Forall_forall in Hco. simpl.
    apply Forall_forall. intros e [Hout He]%list_elem_of_filter.
    destruct (Hco e He) as (? & ? & ? & Hsum).
    rewrite length_insert. split_and!; try done.
    by rewrite list_slice_insert_outside.
Qed.

Lemma run_with_cache_coherent (queries : list Operation) :
  ∀ (array : list Z) (c : LRUCache),
    coherent array c →
    Forall (valid_op (Z.of_nat (length array))) queries →
    ∃ vs array' c',
      run_no_cache array queries = Returns (vs, array') ∧
      run_with_cache array c queries = Returns (vs, (array', c')) ∧
      coherent array' c'.
Proof.
  induction queries as [|q qs IH]; intros array c Hco Hvalid.
  - by exists [], array, c.
  - apply Forall_cons in Hvalid as [Hq Hqs].
    destruct q as [i x | l r]; simpl in Hq.
    + destruct (update_coherent array i x c) as (c1 & E1 & E2 & Hco1);
        [done | lia | lia |].
      destruct (IH (<[Z.to_nat i := x]> array) c1) as (vs & a' & c' & R1 & R2 & Hco');
        [done | by rewrite length_insert |].
      exists vs, a', c'. simpl. rewrite E1, E2. simpl. by rewrite R1, R2.
    + destruct (range_sum_coherent array l r c) as (c1 & E & Hco1);
        [done | lia | lia | lia |].
      destruct (IH array c1) as (vs & a' & c' & R1 & R2 & Hco'); [done | done |].
      exists (sum (list_slice array l (r + 1)) :: vs), a', c'.
      simpl. rewrite E. simpl. by rewrite R1, R2.
Qed.

End equivalence.

(** C1. On every array, with a cache of any capacity, every sequence of
    in-bounds range queries and point updates gets the same answers, in the
    same order, from the cached service started on a fresh cache as from
    the uncached scan, and both leave the same array. *)
Theorem cached_equals_uncached (array : list Z) (K : Z)
    (queries : list Operation) :
  Forall (valid_op (Z.of_nat (length array))) queries →
  ∃ c0 vs array' c',
    init K = Returns c0 ∧
    run_no_cache array queries = Returns (vs, array') ∧
    run_with_cache array c0 queries = Returns (vs, (array', c')).
Proof.
  intros Hvalid.
  destruct (run_with_cache_coherent queries array
              {| cache := []; capacity := K |})
    as (vs & array' & c' & R1 & R2 & _); [by constructor | done |].
  by exists {| cache := []; capacity := K |}, vs, array', c'.
Qed.

Lemma cached_equals_uncached_witness :
  ∃ c0 vs array' c',
    init 1 = Returns c0 ∧
    run_no_cache [1;2;3;4;5]
      [Range 1 3; Range 1 3; Update 2 100; Range 1 3; Range 0 0; Range 1 3]
    = Returns (vs, array') ∧
    run_with_cache [1;2;3;4;5] c0
      [Range 1 3; Range 1 3; Update 2 100; Range 1 3; Range 0 0; Range 1 3]
    = Returns (vs, (array', c')).
Proof.
  apply (cached_equals_uncached [1;2;3;4;5] 1).
  repeat constructor; simpl; lia.
Defined.

(** ** Recency order *)

Section recency_facts.
Import OrderedDict.
Implicit Types (r A B : list key) (k : key) (n : nat).

Lemma lastn_app_exact n A B : length B = n → lastn n (A ++ B) = B.
Proof.
  intros <-. unfold lastn. rewrite length_app.
  apply drop_app_length'. lia.
Qed.

Lemma lastn_short {X} n (l : list X) : (length l ≤ n)%nat → lastn n l = l.
Proof.
  intros Hle. unfold lastn. by replace (length l - n)%nat with 0%nat by lia.
Qed.

Lemma length_lastn {X} n (l : list X) : (length (lastn n l) ≤ n)%nat.
Proof. unfold lastn. rewrite length_drop. lia. Qed.

Lemma NoDup_lastn n r : NoDup r → NoDup (lastn n r).
Proof. intros Hnd. apply (sublist_NoDup _ r Hnd), sublist_drop. Qed.

Lemma NoDup_bump r k : NoDup r → NoDup (bump r k).
Proof.
  intros Hnd. unfold bump. apply NoDup_app. split_and!.
  - by apply NoDup_filter.
  - intros x [Hx _]%list_elem_of_filter ->%list_elem_of_singleton. done.
  - apply NoDup_singleton.
Qed.

Lemma length_bump_in r k : NoDup r → k ∈ r → length (bump r k) = length r.
Proof.
  intros Hnd Hk. unfold bump. rewrite length_app. simpl.
  pose proof (length_filter_ne_in k r Hnd Hk). lia.
Qed.

Lemma bump_notin r k : k ∉ r → bump r k = r ++ [k].
Proof. intros Hk. unfold bump. by rewrite filter_ne_notin. Qed.

(** Every list is a prefix followed by its last [n] elements, and the
    prefix is empty unless the list has [n] elements to give. *)
Lemma lastn_split n r :
  r = take (length r - n) r ++ lastn n r ∧
  (length (lastn n r) = n ∨
   (take (length r - n) r = [] ∧ length (lastn n r) ≤ n)%nat).
Proof.
  split; [unfold lastn; by rewrite take_drop|].
  unfold lastn. rewrite length_drop.
  destruct (Nat.le_gt_cases (length r) n) as [Hle|Hgt].
  - right. split; [|lia].
    by replace (length r - n)%nat with 0%nat by lia.
  - left. lia.
Qed.

(** Touching a key and keeping the last [n] keys is the same as touching
    it within the last [n] keys and dropping the oldest on overflow. *)
Lemma lastn_bump_split n A B k :
  NoDup (A ++ B) →
  length B = n ∨ (A = [] ∧ length B ≤ n)%nat →
  lastn n (bump (A ++ B) k)
  = let L := bump B k in if (n <? length L)%nat then drop 1 L else L.
Proof.
  intros Hnd Hshape. simpl.
  apply NoDup_app in Hnd as (HA & Hdisj & HB).
  destruct (decide (k ∈ B)) as [HkB|HkB].
  - assert (k ∉ A) as HkA by (intros Hk; by apply (Hdisj k Hk)).
    pose proof (length_bump_in B k HB HkB) as Hlen.
    destruct (Nat.ltb_spec n (length (bump B k))); [lia|].
    unfold bump at 1. rewrite filter_app, filter_ne_notin by done.
    rewrite <- app_assoc. fold (bump B k).
    destruct Hshape as [Hn|[-> Hn]].
    + apply lastn_app_exact. lia.
    + simpl. apply lastn_short. lia.
  - rewrite (bump_notin B) by done.
    rewrite length_app. simpl.
    destruct (decide (k ∈ A)) as [HkA|HkA].
    + destruct Hshape as [Hn|[-> _]]; [|by apply elem_of_nil in HkA].
      destruct (Nat.ltb_spec n (length B + 1)); [|lia].
      pose proof (length_filter_ne_in k A HA HkA) as HlenA.
      unfold bump, lastn. rewrite filter_app, (filter_ne_notin k B) by done.
      rewrite <- !app_assoc, !length_app. simpl.
      rewrite drop_app_ge by lia. f_equal. lia.
    + unfold bump at 1.
      rewrite filter_ne_notin by (rewrite not_elem_of_app; tauto).
      rewrite <- app_assoc.
      destruct Hshape as [Hn|[-> Hn]].
      * destruct (Nat.ltb_spec n (length B + 1)); [|lia].
        unfold lastn. rewrite !length_app. simpl.
        rewrite drop_app_ge by lia. f_equal. lia.
      * simpl. destruct (Nat.ltb_spec n (length B + 1)).
        -- unfold lastn. rewrite length_app. simpl. f_equal. lia.
        -- apply lastn_short. rewrite length_app. simpl. lia.
Qed.

Lemma lastn_bump n r k :
  NoDup r →
  lastn n (bump r k)
  = let L := bump (lastn n r) k in
    if (n <? length L)%nat then drop 1 L else L.
Proof.
  intros Hnd. destruct (lastn_split n r) as [Hr Hshape].
  rewrite Hr at 1. apply lastn_bump_split; [by rewrite <- Hr | done].
Qed.

Lemma keys_put c k v :
  keys (cache (put c k v))
  = let L := bump (keys (cache c)) k in
    if Z.of_nat (length L) >? capacity c then drop 1 L else L.
Proof.
  rewrite cache_put. simpl. unfold bump.
  rewrite <- keys_delitem.
  change [k] with (keys [(k, v)]). rewrite <- keys_app, length_keys.
  destruct (_ >? _); [|done]. unfold keys. by rewrite fmap_drop.
Qed.

Lemma keys_get_hit c k :
  k ∈ keys (cache c) → keys (cache (get c k).2) = bump (keys (cache c)) k.
Proof.
  intros Hk. destruct (get_cases c k) as [[Hn _]|(v & Hv & ->)]; [done|].
  simpl. by rewrite keys_app, keys_delitem.
Qed.

Lemma gtb_of_nat (m : nat) (K : Z) :
  0 ≤ K → (Z.of_nat m >? K) = (Z.to_nat K <? m)%nat.
Proof.
  intros HK. destruct (Z.gtb_spec (Z.of_nat m) K);
    destruct (Nat.ltb_spec (Z.to_nat K) m); lia || done.
Qed.

(** One call keeps the cached keys equal to the last [capacity] keys of
    the recency order. *)
Lemma do_call_recency c op r :
  0 ≤ capacity c → NoDup r →
  keys (cache c) = lastn (Z.to_nat (capacity c)) r →
  keys (cache (do_call c op))
  = lastn (Z.to_nat (capacity c)) (foldl bump r (touched c op)).
Proof.
  intros HK Hnd Hkeys.
  assert (NoDup (keys (cache c))) as Hwf by (rewrite Hkeys; by apply NoDup_lastn).
  assert (length (keys (cache c)) ≤ Z.to_nat (capacity c))%nat as Hsz
    by (rewrite Hkeys; apply length_lastn).
  destruct op as [k|k v]; cbn [do_call touched].
  - destruct (contains k (cache c)) eqn:Hc; simpl.
    + apply contains_true in Hc.
      rewrite keys_get_hit, lastn_bump by done. simpl.
      rewrite <- Hkeys.
      pose proof (length_bump_in _ k Hwf Hc).
      by destruct (Nat.ltb_spec (Z.to_nat (capacity c))
                     (length (bump (keys (cache c)) k))); [lia|].
    + apply contains_false in Hc. by rewrite get_miss.
  - cbn [foldl]. rewrite keys_put, lastn_bump by done. simpl.
    by rewrite <- Hkeys, gtb_of_nat.
Qed.

Lemma capacity_do_call c op : capacity (do_call c op) = capacity c.
Proof. destruct op; simpl; [apply capacity_get | done]. Qed.

Lemma NoDup_foldl_bump r ts : NoDup r → NoDup (foldl bump r ts).
Proof.
  revert r. induction ts as [|t ts IH]; intros r Hnd; [done|].
  simpl. by apply IH, NoDup_bump.
Qed.

Lemma run_calls_recency ops :
  ∀ c r,
    0 ≤ capacity c → NoDup r →
    keys (cache c) = lastn (Z.to_nat (capacity c)) r →
    keys (cache (run_calls c ops))
    = lastn (Z.to_nat (capacity c)) (foldl bump r (touches c ops)) ∧
    capacity (run_calls c ops) = capacity c.
Proof.
  induction ops as [|op ops IH]; intros c r HK Hnd Hkeys; [done|].
  simpl. rewrite foldl_app.
  destruct (IH (do_call c op) (foldl bump r (touched c op))) as [Hk Hc].
  - by rewrite capacity_do_call.
  - by apply NoDup_foldl_bump.
  - rewrite capacity_do_call. by apply do_call_recency.
  - unfold run_calls in *. rewrite capacity_do_call in Hk, Hc. done.
Qed.

End recency_facts.

Lemma eviction_is_oldest (c : LRUCache) (k : key) (v : Z) (x : key) :
  0 < capacity c →
  NoDup (get_all_keys c) →
  (length (get_all_keys c) ≤ Z.to_nat (capacity c))%nat →
  x ∈ get_all_keys c → x ∉ get_all_keys (put c k v) →
  head (get_all_keys c) = Some x ∧
  length (get_all_keys c) = Z.to_nat (capacity c) ∧
  k ∉ get_all_keys c.
Proof.
  unfold get_all_keys. intros HK Hnd Hsz Hx Hgone.
  rewrite keys_put in Hgone. simpl in Hgone.
  rewrite gtb_of_nat in Hgone by lia.
  destruct (decide (k ∈ OrderedDict.keys (cache c))) as [Hk|Hk].
  - exfalso. rewrite (length_bump_in _ k Hnd Hk) in Hgone.
    destruct (Nat.ltb_spec (Z.to_nat (capacity c))
                (length (OrderedDict.keys (cache c)))); [lia|].
    apply Hgone. unfold bump.
    rewrite elem_of_app, list_elem_of_filter, list_elem_of_singleton.
    destruct (decide (x = k)); tauto.
  - rewrite bump_notin, length_app in Hgone by done. simpl in Hgone.
    destruct (Nat.ltb_spec (Z.to_nat (capacity c))
                (length (OrderedDict.keys (cache c)) + 1)) as [Hlt|Hge].
    + destruct (OrderedDict.keys (cache c)) as [|h t] eqn:E.
      { by apply elem_of_nil in Hx. }
      simpl in *. rewrite drop_0 in Hgone.
      apply elem_of_cons in Hx as [->|Hx].
      * split_and!; [done | lia | done].
      * exfalso. apply Hgone. apply elem_of_app. by left.
    + exfalso. apply Hgone. apply elem_of_app. by left.
Qed.

(** C4. After any sequence of [put] and [get] calls on a cache of positive
    capacity K, the cached keys are the last K distinct keys touched (by a
    [put] or by a [get] that hit), oldest first; and a key that a further
    [put] removes is the oldest of them, the cache being full and the key
    put being new. *)
Theorem recency_invariant (K : Z) (ops : list call) :
  0 < K →
  ∃ c0, init K = Returns c0 ∧
    let c := run_calls c0 ops in
    let order := recency (touches c0 ops) in
    get_all_keys c = lastn (Z.to_nat K) order ∧
    ((Z.to_nat K ≤ length order)%nat →
     length (get_all_keys c) = Z.to_nat K) ∧
    ∀ k v x, x ∈ get_all_keys c → x ∉ get_all_keys (put c k v) →
      head (lastn (Z.to_nat K) order) = Some x ∧
      length (get_all_keys c) = Z.to_nat K ∧
      k ∉ get_all_keys c.
Proof.
  intros HK. eexists. split; [reflexivity|]. simpl.
  destruct (run_calls_recency ops {| cache := []; capacity := K |} [])
    as [Hkeys Hcap]; [simpl; lia | constructor | done |].
  simpl in Hkeys, Hcap. fold (recency (touches {| cache := []; capacity := K |} ops)) in Hkeys.
  unfold get_all_keys at 1 2. rewrite Hkeys. split_and!; [done | |].
  - intros Hlen. unfold lastn. rewrite length_drop. lia.
  - intros k v x Hx Hgone.
    destruct (eviction_is_oldest
                (run_calls {| cache := []; capacity := K |} ops) k v x)
      as (Hhead & Hfull & Hnew); unfold get_all_keys in *; try done.
    + rewrite Hcap. lia.
    + rewrite Hkeys. apply NoDup_lastn, NoDup_foldl_bump. constructor.
    + rewrite Hkeys, Hcap. apply length_lastn.
    + rewrite Hcap in Hfull. by rewrite <- Hkeys.
Qed.

Lemma recency_invariant_witness :
  ∃ c0, init 2 = Returns c0 ∧
    let ops := [Put (0,2) 10; Put (1,3) 20; Put (2,4) 30; Get (1,3);
                Get (0,2); Put (5,6) 40] in
    let c := run_calls c0 ops in
    let order := recency (touches c0 ops) in
    get_all_keys c = lastn (Z.to_nat 2) order ∧
    ((Z.to_nat 2 ≤ length order)%nat →
     length (get_all_keys c) = Z.to_nat 2) ∧
    ∀ k v x, x ∈ get_all_keys c → x ∉ get_all_keys (put c k v) →
      head (lastn (Z.to_nat 2) order) = Some x ∧
      length (get_all_keys c) = Z.to_nat 2 ∧
      k ∉ get_all_keys c.
Proof. apply (recency_invariant 2). lia. Defined.

Example recency_scenario :
  let c0 := {| cache := []; capacity := 2 |} in
  let ops := [Put (0,2) 10; Put (1,3) 20; Put (2,4) 30; Get (1,3);
              Get (0,2); Put (5,6) 40] in
  touches c0 ops = [(0,2); (1,3); (2,4); (1,3); (5,6)] ∧
  recency (touches c0 ops) = [(0,2); (2,4); (1,3); (5,6)] ∧
  get_all_keys (run_calls c0 ops) = [(1,3); (5,6)].
Proof. vm_compute. done. Qed.

(** ** Construction *)

Lemma nonpositive_capacity_keeps_nothing (c : LRUCache) (ops : list call) :
  capacity c ≤ 0 → cache c = [] →
  Forall (λ c', cache c' = []) (states c ops).
Proof.
  revert c. induction ops as [|op ops IH]; intros c HK Hempty; simpl.
  - constructor.
  - assert (cache (do_call c op) = []) as Hempty'.
    { destruct op as [k|k v]; cbn [do_call].
      - rewrite get_miss; [done|]. rewrite Hempty. apply not_elem_of_nil.
      - rewrite cache_put, Hempty. simpl.
        by destruct (Z.gtb_spec (Z.of_nat 1) (capacity c)); [|lia]. }
    constructor; [done|]. apply IH; [by rewrite capacity_do_call | done].
Qed.

(** C7, as the code has it.  The constructor accepts every capacity and
    raises nothing; a cache built with a capacity of zero or less is empty
    after every call. *)
Theorem init_accepts_any_capacity (K : Z) :
  ∃ c0, init K = Returns c0 ∧ cache c0 = [] ∧ capacity c0 = K ∧
        (K ≤ 0 → ∀ ops, Forall (λ c, cache c = []) (states c0 ops)).
Proof.
  eexists. split_and!; [reflexivity | done | done |].
  intros HK ops. by apply nonpositive_capacity_keeps_nothing.
Qed.

Lemma init_accepts_any_capacity_witness :
  ∃ c0, init 0 = Returns c0 ∧ cache c0 = [] ∧ capacity c0 = 0 ∧
        Forall (λ c, cache c = []) (states c0 [Put (0,2) 10; Get (0,2)]).
Proof.
  destruct (init_accepts_any_capacity 0) as (c0 & Hinit & Hc & Hk & Hops).
  exists c0. split_and!; [exact Hinit | exact Hc | exact Hk |].
  apply Hops. lia.
Defined.

(** C7 as stated fails: capacities 0 and -1 are accepted. *)
Lemma init_nonpositive_counterexample :
  0 ≤ 0 ∧ -1 ≤ 0 ∧
  init 0 = Returns {| cache := []; capacity := 0 |} ∧
  init (-1) = Returns {| cache := []; capacity := -1 |} ∧
  ¬ (∃ e, init 0 = Raises e).
Proof. split_and!; [lia | lia | done | done |]. by intros [e ?]. Qed.

(** ** Out-of-range arguments *)

Lemma list_slice_inverted (array : list Z) (l r : Z) :
  0 ≤ r → r < l → list_slice array l (r + 1) = [].
Proof.
  intros Hr Hlr. unfold list_slice, slice_index.
  destruct (Z.ltb_spec l 0); [lia|].
  destruct (Z.ltb_spec (r + 1) 0); [lia|].
  replace (Z.to_nat _) with 0%nat by lia. apply take_0.
Qed.

Lemma range_sum_with_cache_returns (array : list Z) (l r : Z) (c : LRUCache) :
  ∃ v c', range_sum_with_cache array l r c = Returns (v, c') ∧
          ((l, r) ∉ get_all_keys c → v = sum (list_slice array l (r + 1))).
Proof.
  unfold range_sum_with_cache.
  destruct (range_sum_with_cache_path array l r c) as [[p v] c'] eqn:E.
  exists v, c'. split; [done|]. intros Hk.
  unfold range_sum_with_cache_path in E. rewrite get_miss in E by done.
  simpl in E. congruence.
Qed.

(** C6, as the code has it.  [update_with_cache] raises [IndexError] when
    the index is below -n or at least n, and writes at [index + n] when the
    index is in [-n, 0); [range_sum_with_cache] raises nothing: for a range
    that is not cached it returns the sum of the slice, whose ends are
    clamped to the array, and the slice is empty when 0 <= right < left. *)
Theorem out_of_range_behaviour (array : list Z) (index value : Z)
    (c : LRUCache) :
  let n := Z.of_nat (length array) in
  (index < - n ∨ n ≤ index →
   update_with_cache array index value c = Raises IndexError) ∧
  (- n ≤ index < 0 →
   ∃ c', update_with_cache array index value c
         = Returns (<[Z.to_nat (index + n) := value]> array, c')) ∧
  (∀ l r, ∃ v c',
     range_sum_with_cache array l r c = Returns (v, c') ∧
     ((l, r) ∉ get_all_keys c → v = sum (list_slice array l (r + 1))) ∧
     (0 ≤ r < l → list_slice array l (r + 1) = [])).
Proof.
  intros n. subst n. split_and!.
  - intros Hout. unfold update_with_cache, list_setitem.
    destruct (Z.ltb_spec index 0).
    + destruct (Z.ltb_spec (index + Z.of_nat (length array)) 0); [done | lia].
    + destruct (Z.ltb_spec index 0); [lia|].
      by destruct (Z.leb_spec (Z.of_nat (length array)) index); [|lia].
  - intros Hneg. unfold update_with_cache, list_setitem.
    destruct (Z.ltb_spec index 0); [|lia].
    destruct (Z.ltb_spec (index + Z.of_nat (length array)) 0); [lia|].
    destruct (Z.leb_spec (Z.of_nat (length array))
                (index + Z.of_nat (length array))); [lia|].
    simpl. by eexists.
  - intros l r.
    destruct (range_sum_with_cache_returns array l r c) as (v & c' & E & Hv).
    exists v, c'. split_and!; [done | done |].
    intros [? ?]. by apply list_slice_inverted.
Qed.

Lemma out_of_range_behaviour_witness :
  let c := {| cache := [((0, 1), 3)]; capacity := 2 |} in
  update_with_cache [1;2;3] 3 9 c = Raises IndexError ∧
  (∃ c', update_with_cache [1;2;3] (-1) 9 c = Returns ([1;2;9], c')) ∧
  list_slice [1;2;3] 2 (1 + 1) = [].
Proof.
  split_and!.
  - apply (out_of_range_behaviour [1;2;3] 3 9). simpl. lia.
  - apply (out_of_range_behaviour [1;2;3] (-1) 9). simpl. lia.
  - destruct (out_of_range_behaviour [1;2;3] 0 0
                {| cache := []; capacity := 2 |}) as (_ & _ & Hq).
    destruct (Hq 2 1) as (v & c' & _ & _ & Hempty). apply Hempty. lia.
Defined.

(** C6 as stated fails: an inverted range, a right end past the array and a
    negative left end are all answered, and a negative index is written. *)
Lemma out_of_range_counterexample :
  let c := {| cache := []; capacity := 2 |} in
  range_sum_with_cache [1;2;3] 2 1 c
  = Returns (0, {| cache := [((2, 1), 0)]; capacity := 2 |}) ∧
  range_sum_with_cache [1;2;3] 1 7 c
  = Returns (5, {| cache := [((1, 7), 5)]; capacity := 2 |}) ∧
  range_sum_with_cache [1;2;3] (-2) 2 c
  = Returns (5, {| cache := [((-2, 2), 5)]; capacity := 2 |}) ∧
  update_with_cache [1;2;3] (-1) 9 c = Returns ([1;2;9], c) ∧
  range_sum_with_cache [1;2;3] 2 1 c ≠ Raises IndexError ∧
  update_with_cache [1;2;3] (-1) 9 c ≠ Raises IndexError.
Proof. vm_compute. split_and!; done. Qed.

(** ** The hot pool *)

Lemma randint_bounds (a b : Z) (g : Random) :
  a ≤ b →
  ∃ x g', randint a b g = Returns (x, g') ∧ a ≤ x ∧ x ≤ b.
Proof.
  intros Hab. unfold randint, randbelow, draw.
  destruct (Z.ltb_spec b a); [lia|].
  eexists _, _. split; [done|].
  pose proof (Z.mod_pos_bound (tape g (pos g)) (b - a + 1)). lia.
Qed.

(** C9, as the code has it.  For an array of at least one element every
    range of the hot pool has its left end in [0, n/2] and its right end in
    [n/2, n-1], both ends included, so left <= right; the pool has
    [hot_pool] ranges and is the one the queries are then drawn from. *)
Theorem make_hot_bounds (n q hot_pool : Z) (p_hot p_update : Q) (g : Random) :
  1 ≤ n →
  ∃ hot g',
    make_hot n (Z.to_nat hot_pool) g = Returns (hot, g') ∧
    make_queries n q hot_pool p_hot p_update g
    = make_ops n hot p_hot p_update (Z.to_nat q) g' ∧
    length hot = Z.to_nat hot_pool ∧
    Forall (λ lr : key, 0 ≤ lr.1 ∧ lr.1 ≤ n `div` 2 ∧
                        n `div` 2 ≤ lr.2 ∧ lr.2 < n ∧ lr.1 ≤ lr.2) hot.
Proof.
  intros Hn.
  assert (0 ≤ n `div` 2 ∧ n `div` 2 ≤ n - 1) as [Hlo Hhi].
  { split; [apply Z.div_pos; lia|].
    assert (n `div` 2 < n) by (apply Z.div_lt_upper_bound; lia). lia. }
  assert (∀ count g, ∃ hot g',
            make_hot n count g = Returns (hot, g') ∧ length hot = count ∧
            Forall (λ lr : key, 0 ≤ lr.1 ∧ lr.1 ≤ n `div` 2 ∧
                                n `div` 2 ≤ lr.2 ∧ lr.2 < n ∧ lr.1 ≤ lr.2) hot)
    as Hpool.
  { induction count as [|count IH]; intros g0.
    - by exists [], g0.
    - simpl.
      destruct (randint_bounds 0 (n `div` 2) g0) as (l & g1 & -> & ? & ?);
        [done|]. simpl.
      destruct (randint_bounds (n `div` 2) (n - 1) g1) as (r & g2 & -> & ? & ?);
        [done|]. simpl.
      destruct (IH g2) as (hot & g3 & -> & Hlen & Hall). simpl.
      exists ((l, r) :: hot), g3. split_and!; [done | by rewrite <- Hlen |].
      constructor; [simpl; lia | done]. }
  destruct (Hpool (Z.to_nat hot_pool) g) as (hot & g' & E & Hlen & Hall).
  exists hot, g'. split_and!; try done.
  unfold make_queries. by rewrite E.
Qed.

Lemma make_hot_bounds_witness :
  ∃ hot g',
    make_hot 2 (Z.to_nat 3) {| tape := λ i, Z.of_nat i; pos := 0 |}
    = Returns (hot, g') ∧
    make_queries 2 4 3 (95 # 100) (3 # 100)
      {| tape := λ i, Z.of_nat i; pos := 0 |}
    = make_ops 2 hot (95 # 100) (3 # 100) (Z.to_nat 4) g' ∧
    length hot = Z.to_nat 3 ∧
    Forall (λ lr : key, 0 ≤ lr.1 ∧ lr.1 ≤ 2 `div` 2 ∧
                        2 `div` 2 ≤ lr.2 ∧ lr.2 < 2 ∧ lr.1 ≤ lr.2) hot.
Proof. apply (make_hot_bounds 2 4 3). lia. Defined.

(** C9 as stated fails: with n = 2 the left end can be 1 = n/2. *)
Lemma hot_left_counterexample :
  2 ≤ 2 ∧
  make_hot 2 1 {| tape := λ _, 1; pos := 0 |}
  = Returns ([(1, 1)], {| tape := λ _, 1; pos := 2 |}) ∧
  ¬ (1 < 2 `div` 2).
Proof. split_and!; [lia | reflexivity | vm_compute; discriminate]. Qed.


(** * Further properties of the cache *)

Lemma getitem_app (k : key) (d1 d2 : list (key * Z)) :
  OrderedDict.getitem k (d1 ++ d2)
  = match OrderedDict.getitem k d1 with
    | Some v => Some v
    | None => OrderedDict.getitem k d2
    end.
Proof.
  induction d1 as [|[k' v'] d1 IH]; simpl; [done|].
  by case_decide.
Qed.

Lemma getitem_delitem_eq (k : key) (d : list (key * Z)) :
  OrderedDict.getitem k (OrderedDict.delitem k d) = None.
Proof. apply getitem_None, not_elem_of_keys_delitem. Qed.

(** With a positive capacity the entry just put is the last one. *)
Lemma cache_put_last (c : LRUCache) (k : key) (v : Z) :
  0 < capacity c →
  ∃ d, (k ∉ OrderedDict.keys d) ∧ cache (put c k v) = d ++ [(k, v)].
Proof.
  intros Hcap. rewrite cache_put. simpl.
  pose proof (not_elem_of_keys_delitem k (cache c)) as Hn.
  destruct (Z.gtb_spec
              (Z.of_nat (length (OrderedDict.delitem k (cache c) ++ [(k, v)])))
              (capacity c)) as [Hgt|_].
  - destruct (OrderedDict.delitem k (cache c)) as [|e d]; [simpl in Hgt; lia|].
    exists d. split; [|by rewrite <- app_comm_cons].
    unfold OrderedDict.keys in *. rewrite fmap_cons, not_elem_of_cons in Hn.
    tauto.
  - by eexists.
Qed.

(** X1. With a positive capacity, a [get] right after [put k v] returns [v]
    and leaves the cache exactly as the [put] left it. *)
Theorem put_get_roundtrip (c : LRUCache) (k : key) (v : Z) :
  0 < capacity c → get (put c k v) k = (v, put c k v).
Proof.
  intros Hcap. destruct (cache_put_last c k v Hcap) as (d & Hk & Hd).
  rewrite (get_hit _ k v).
  - f_equal. destruct (put c k v) as [d' K] eqn:E. simpl in *. subst d'.
    f_equal. unfold OrderedDict.delitem. rewrite filter_app.
    fold (OrderedDict.delitem k d). rewrite delitem_notin by done.
    rewrite (filter_cons_False (λ e : key * Z, e.1 ≠ k)) by (simpl; tauto).
    by rewrite filter_nil, app_nil_r.
  - rewrite Hd, getitem_app_notin by done. simpl. by rewrite decide_True.
Qed.

Lemma put_get_roundtrip_witness :
  let c := {| cache := [((0,2), 10); ((1,3), 20)]; capacity := 2 |} in
  get (put c (2,4) 30) (2,4) = (30, put c (2,4) 30).
Proof. apply put_get_roundtrip. simpl. lia. Defined.

(** X2. [get] returns the value stored under the key, or -1 when there is
    none, and changes no binding of the dictionary: every key looks up to
    the same value after the call as before. *)
Theorem get_keeps_bindings (c : LRUCache) (k : key) :
  (get c k).1 = default (-1) (OrderedDict.getitem k (cache c)) ∧
  capacity (get c k).2 = capacity c ∧
  ∀ k', OrderedDict.getitem k' (cache (get c k).2)
        = OrderedDict.getitem k' (cache c).
Proof.
  destruct (get_cases c k) as [[Hk ->]|(v & Hv & ->)]; simpl.
  - apply getitem_None in Hk. by rewrite Hk.
  - rewrite Hv. split_and!; [done | done |]. intros k'.
    rewrite getitem_app. destruct (decide (k' = k)) as [->|Hne].
    + rewrite getitem_delitem_eq. simpl. by rewrite decide_True.
    + rewrite getitem_delitem_ne by done. simpl.
      rewrite decide_False by congruence.
      by destruct (OrderedDict.getitem k' (cache c)).
Qed.

(** X3. On a dictionary without repeated keys, [get] only reorders: the
    entries after the call are a permutation of the entries before, and on a
    hit the key asked for is the last one. *)
Theorem get_permutes (c : LRUCache) (k : key) :
  OrderedDict.wf (cache c) →
  cache (get c k).2 ≡ₚ cache c ∧
  OrderedDict.wf (cache (get c k).2) ∧
  (k ∈ get_all_keys c → last (get_all_keys (get c k).2) = Some k).
Proof.
  intros Hwf. split_and!; [| by apply wf_get |].
  - destruct (get_cases c k) as [[Hk ->]|(v & Hv & ->)]; [done|]. simpl.
    clear -Hwf Hv. unfold OrderedDict.wf, OrderedDict.keys in Hwf.
    induction (cache c) as [|[k1 v1] d IH]; [done|].
    rewrite fmap_cons in Hwf. apply NoDup_cons in Hwf as [Hk1 Hnd].
    simpl in Hv. unfold OrderedDict.delitem.
    destruct (decide (k1 = k)) as [->|Hne].
    + simplify_eq.
      rewrite (filter_cons_False (λ e : key * Z, e.1 ≠ k)) by (simpl; tauto).
      fold (OrderedDict.delitem k d). rewrite delitem_notin by done.
      symmetry. apply Permutation_cons_append.
    + rewrite (filter_cons_True (λ e : key * Z, e.1 ≠ k)) by done.
      rewrite <- app_comm_cons. constructor. by apply IH.
  - intros Hk. unfold get_all_keys. rewrite keys_get_hit by done.
    unfold bump. apply last_snoc.
Qed.

Lemma get_permutes_witness :
  let c := {| cache := [((0,2), 10); ((1,3), 20)]; capacity := 2 |} in
  cache (get c (0,2)).2 ≡ₚ cache c ∧
  OrderedDict.wf (cache (get c (0,2)).2) ∧
  ((0,2) ∈ get_all_keys c → last (get_all_keys (get c (0,2)).2) = Some (0,2)).
Proof.
  apply get_permutes. unfold OrderedDict.wf. simpl.
  apply NoDup_cons. split; [|apply NoDup_singleton].
  rewrite list_elem_of_singleton. discriminate.
Defined.

(** X4. [put] on a key that is already cached (no repeated keys, cache
    within its capacity) evicts nothing: the entry moves to the end with the
    new value, the number of entries stays, and every other key keeps its
    value. *)
Theorem put_existing_key (c : LRUCache) (k : key) (v : Z) :
  OrderedDict.wf (cache c) →
  Z.of_nat (size c) ≤ capacity c →
  k ∈ get_all_keys c →
  cache (put c k v) = OrderedDict.delitem k (cache c) ++ [(k, v)] ∧
  size (put c k v) = size c ∧
  ∀ k', k' ≠ k →
    OrderedDict.getitem k' (cache (put c k v))
    = OrderedDict.getitem k' (cache c).
Proof.
  unfold get_all_keys, size. intros Hwf Hsz Hk.
  assert (length (OrderedDict.delitem k (cache c) ++ [(k, v)])
          = length (cache c)) as Hlen.
  { rewrite <- !length_keys, keys_app, keys_delitem, length_app. simpl.
    pose proof (length_filter_ne_in k _ Hwf Hk). lia. }
  assert (cache (put c k v) = OrderedDict.delitem k (cache c) ++ [(k, v)]) as E.
  { rewrite cache_put. simpl. rewrite Hlen.
    by destruct (Z.gtb_spec (Z.of_nat (length (cache c))) (capacity c)); [lia|]. }
  rewrite E. split_and!; [done | done |].
  intros k' Hne. rewrite getitem_app, getitem_delitem_ne by done. simpl.
  rewrite decide_False by congruence.
  by destruct (OrderedDict.getitem k' (cache c)).
Qed.

Lemma put_existing_key_witness :
  let c := {| cache := [((0,2), 10); ((1,3), 20)]; capacity := 2 |} in
  cache (put c (0,2) 11) = OrderedDict.delitem (0,2) (cache c) ++ [((0,2), 11)] ∧
  size (put c (0,2) 11) = size c ∧
  ∀ k', k' ≠ (0,2) →
    OrderedDict.getitem k' (cache (put c (0,2) 11))
    = OrderedDict.getitem k' (cache c).
Proof.
  apply put_existing_key.
  - unfold OrderedDict.wf. simpl. apply NoDup_cons.
    split; [|apply NoDup_singleton]. rewrite list_elem_of_singleton. discriminate.
  - unfold size. simpl. lia.
  - left.
Defined.

(** X5. [put] of a key that is not cached appends the entry when the cache
    has room; when the cache of positive capacity is full it removes exactly
    the first (oldest) entry and appends the new one. *)
Theorem put_new_key (c : LRUCache) (k : key) (v : Z) :
  k ∉ get_all_keys c →
  (Z.of_nat (size c) < capacity c → cache (put c k v) = cache c ++ [(k, v)]) ∧
  (0 < capacity c → capacity c ≤ Z.of_nat (size c) →
   cache (put c k v) = drop 1 (cache c) ++ [(k, v)]).
Proof.
  unfold get_all_keys, size. intros Hk.
  rewrite cache_put, delitem_notin by done. simpl. rewrite length_app. simpl.
  split.
  - intros Hroom.
    by destruct (Z.gtb_spec (Z.of_nat (length (cache c) + 1)) (capacity c));
      [lia|].
  - intros Hcap Hfull.
    destruct (Z.gtb_spec (Z.of_nat (length (cache c) + 1)) (capacity c));
      [|lia].
    destruct (cache c) as [|e d]; [simpl in Hfull; lia | done].
Qed.

Lemma put_new_key_witness :
  let c := {| cache := [((0,2), 10); ((1,3), 20)]; capacity := 2 |} in
  cache (put c (2,4) 30) = drop 1 (cache c) ++ [((2,4), 30)] ∧
  cache (put {| cache := [((0,2), 10)]; capacity := 2 |} (2,4) 30)
  = [((0,2), 10)] ++ [((2,4), 30)].
Proof.
  split.
  - apply put_new_key; [|simpl; lia|unfold size; simpl; lia].
    unfold get_all_keys. simpl. rewrite !not_elem_of_cons.
    split_and!; [discriminate | discriminate | apply not_elem_of_nil].
  - apply (put_new_key {| cache := [((0,2), 10)]; capacity := 2 |});
      [|unfold size; simpl; lia].
    unfold get_all_keys. simpl. rewrite !not_elem_of_cons.
    split_and!; [discriminate | apply not_elem_of_nil].
Defined.

Lemma last_keys_snoc (d : list (key * Z)) (k : key) (v : Z) :
  last (OrderedDict.keys (d ++ [(k, v)])) = Some k.
Proof. rewrite keys_app. apply last_snoc. Qed.

(** The most recent key of a cache of capacity at least 2 survives a put. *)
Lemma last_key_survives_put (c : LRUCache) (k k' : key) (v' : Z) :
  2 ≤ capacity c → last (get_all_keys c) = Some k →
  k ∈ get_all_keys (put c k' v').
Proof.
  unfold get_all_keys. intros Hcap Hlast. rewrite keys_put. simpl.
  destruct (decide (k' = k)) as [->|Hne].
  - assert (∀ L : list key, (2 ≤ length (L ++ [k]))%nat → k ∈ drop 1 (L ++ [k]))
      as Hdrop.
    { intros [|x L] HL; [simpl in HL; lia|]. simpl. rewrite drop_0.
      apply elem_of_app. right. left. }
    unfold bump.
    match goal with |- context [?a >? ?b] =>
      destruct (Z.gtb_spec a b) as [Hgt|_] end.
    + apply Hdrop. lia.
    + apply elem_of_app. right. left.
  - apply last_Some in Hlast as [ks Hks]. rewrite Hks. unfold bump.
    rewrite filter_app, (filter_cons_True (λ x, x ≠ k')) by congruence.
    rewrite filter_nil.
    match goal with |- context [?a >? ?b] =>
      destruct (Z.gtb_spec a b) as [Hgt|_] end.
    + destruct (filter (λ x, x ≠ k') ks) as [|x L]; simpl in *; [lia|].
      rewrite drop_0, !elem_of_app. left. right. left.
    + rewrite !elem_of_app. left. right. left.
Qed.

(** X6. In a cache of capacity at least 2, a key that was just put, or just
    read by a [get] that hit, is still cached after the next [put],
    whatever key that [put] brings. *)
Theorem recently_used_survives (c : LRUCache) (k k' : key) (v v' : Z) :
  2 ≤ capacity c →
  k ∈ get_all_keys (put (put c k v) k' v') ∧
  (k ∈ get_all_keys c → k ∈ get_all_keys (put (get c k).2 k' v')).
Proof.
  intros Hcap. split.
  - apply last_key_survives_put; [done|].
    destruct (cache_put_last c k v) as (d & _ & Hd); [lia|].
    unfold get_all_keys. rewrite Hd. apply last_keys_snoc.
  - intros Hk. apply last_key_survives_put; [by rewrite capacity_get|].
    unfold get_all_keys in *. rewrite keys_get_hit by done. apply last_snoc.
Qed.

Lemma recently_used_survives_witness :
  let c := {| cache := [((0,2), 10); ((1,3), 20)]; capacity := 2 |} in
  (0,2) ∈ get_all_keys (put (put c (0,2) 11) (5,6) 40) ∧
  ((0,2) ∈ get_all_keys c → (0,2) ∈ get_all_keys (put (get c (0,2)).2 (5,6) 40)).
Proof. apply recently_used_survives. simpl. lia. Defined.

(** * Further properties of the services *)

(** The position [arr[index] = value] writes to. *)
Lemma list_setitem_cases (arr : list Z) (index value : Z) :
  let n := Z.of_nat (length arr) in
  (index < - n ∨ n ≤ index) ∧ list_setitem arr index value = Raises IndexError ∨
  (- n ≤ index < n) ∧
    list_setitem arr index value
    = Returns (<[Z.to_nat (if index <? 0 then index + n else index) := value]> arr).
Proof.
  simpl. unfold list_setitem.
  destruct (Z.ltb_spec index 0).
  - destruct (Z.ltb_spec (index + Z.of_nat (length arr)) 0); simpl.
    + left. split; [lia | done].
    + destruct (Z.leb_spec (Z.of_nat (length arr))
                  (index + Z.of_nat (length arr))); [lia|].
      right. split; [lia | done].
  - destruct (Z.ltb_spec index 0); [lia|]. simpl.
    destruct (Z.leb_spec (Z.of_nat (length arr)) index).
    + left. split; [lia | done].
    + right. split; [lia | done].
Qed.

Lemma update_with_cache_inv (array : list Z) (index value : Z) (c : LRUCache)
    (array' : list Z) (c' : LRUCache) :
  update_with_cache array index value c = Returns (array', c') →
  list_setitem array index value = Returns array' ∧
  length array' = length array ∧
  capacity c' = capacity c ∧
  cache c' = filter (λ e : key * Z, ¬ (e.1.1 ≤ index ∧ index ≤ e.1.2)) (cache c).
Proof.
  unfold update_with_cache.
  destruct (list_setitem_cases array index value) as [[_ E]|[_ E]];
    rewrite E; simpl; [done|].
  intros [= <- <-]. simpl. split_and!; [done | apply length_insert | done |].
  rewrite delete_loop. apply filter_ext_elem_of. intros e He.
  unfold get_all_keys. rewrite list_elem_of_filter.
  assert (e.1 ∈ OrderedDict.keys (cache c)) by by apply list_elem_of_fmap_2.
  tauto.
Qed.

(** X7. Whenever [update_with_cache] returns, for any index it accepts, the
    cache afterwards is the cache before without the entries whose range
    covers the index as given: survivors keep their order and values,
    nothing is added, and the capacity and the array length are unchanged. *)
Theorem invalidation_exact (array : list Z) (index value : Z) (c : LRUCache)
    (array' : list Z) (c' : LRUCache) :
  update_with_cache array index value c = Returns (array', c') →
  cache c' = filter (λ e : key * Z, ¬ (e.1.1 ≤ index ∧ index ≤ e.1.2)) (cache c) ∧
  cache c' `sublist_of` cache c ∧
  capacity c' = capacity c ∧
  length array' = length array.
Proof.
  intros (_ & Hlen & Hcap & Hc)%update_with_cache_inv.
  split_and!; [done | | done | done].
  rewrite Hc. apply sublist_filter.
Qed.

Lemma invalidation_exact_witness :
  let c := {| cache := [((0,1), 3); ((1,3), 9); ((3,4), 9)]; capacity := 3 |} in
  let c' := {| cache := [((0,1), 3); ((3,4), 9)]; capacity := 3 |} in
  cache c' = filter (λ e : key * Z, ¬ (e.1.1 ≤ 2 ∧ 2 ≤ e.1.2)) (cache c) ∧
  cache c' `sublist_of` cache c ∧
  capacity c' = capacity c ∧
  length [1;2;100;4;5] = length [1;2;3;4;5].
Proof.
  apply (invalidation_exact [1;2;3;4;5] 2 100
           {| cache := [((0,1), 3); ((1,3), 9); ((3,4), 9)]; capacity := 3 |}).
  reflexivity.
Defined.

(** X8. A negative index that Python accepts invalidates nothing when every
    cached range starts at 0 or later: the array is written at
    [index + n] and the cache is returned as it was, entries covering the
    written position included. *)
Theorem negative_index_keeps_cache (array : list Z) (index value : Z)
    (c : LRUCache) :
  - Z.of_nat (length array) ≤ index → index < 0 →
  Forall (λ e : key * Z, 0 ≤ e.1.1) (cache c) →
  update_with_cache array index value c
  = Returns (<[Z.to_nat (index + Z.of_nat (length array)) := value]> array, c).
Proof.
  intros Hlo Hneg Hkeys.
  destruct (update_with_cache array index value c) as [[a' c']|e] eqn:E.
  - pose proof E as (Hset & _ & Hcap & Hc)%update_with_cache_inv.
    destruct (list_setitem_cases array index value) as [[? _]|[_ Hset']];
      [lia|].
    rewrite Hset' in Hset. destruct (Z.ltb_spec index 0); [|lia].
    injection Hset as <-. f_equal. f_equal.
    destruct c as [d K], c' as [d' K']. simpl in *. subst K'. f_equal.
    rewrite Hc. clear -Hkeys Hneg.
    induction Hkeys as [|e d He _ IH]; [done|].
    rewrite filter_cons_True by lia. by rewrite IH.
  - exfalso. unfold update_with_cache in E.
    destruct (list_setitem_cases array index value) as [[? _]|[_ Hset']];
      [lia|].
    by rewrite Hset' in E.
Qed.

Lemma negative_index_keeps_cache_witness :
  let c := {| cache := [((1,3), 9)]; capacity := 2 |} in
  update_with_cache [1;2;3;4;5] (-3) 100 c
  = Returns (<[Z.to_nat (-3 + Z.of_nat (length [1;2;3;4;5])) := 100]> [1;2;3;4;5], c).
Proof.
  apply negative_index_keeps_cache; [simpl; lia | lia |].
  repeat constructor. simpl. lia.
Defined.

(** ** Sums of slices *)

Lemma foldl_add_shift (l : list Z) (a : Z) :
  foldl Z.add a l = a + foldl Z.add 0 l.
Proof.
  revert a. induction l as [|x l IH]; intros a; simpl; [lia|].
  rewrite (IH (a + x)), (IH (0 + x)). lia.
Qed.

Lemma sum_cons (x : Z) (l : list Z) : sum (x :: l) = x + sum l.
Proof. unfold sum. simpl. apply foldl_add_shift. Qed.

Lemma sum_app (l1 l2 : list Z) : sum (l1 ++ l2) = sum l1 + sum l2.
Proof.
  induction l1 as [|x l1 IH]; [done|].
  rewrite <- app_comm_cons, !sum_cons, IH. lia.
Qed.

Lemma sum_insert (l : list Z) (j : nat) (x old : Z) :
  l !! j = Some old → sum (<[j := x]> l) = sum l + x - old.
Proof.
  revert j. induction l as [|y l IH]; intros [|j] Hj; simplify_eq/=.
  - rewrite !sum_cons. lia.
  - rewrite !sum_cons, (IH j) by done. lia.
Qed.

(** X9. The sum over an in-bounds range is the sum over its two halves,
    wherever the range is cut. *)
Theorem range_sum_split (array : list Z) (l m r : Z) :
  0 ≤ l → l ≤ m → m < r → r < Z.of_nat (length array) →
  ∃ s1 s2,
    range_sum_no_cache array l m = Returns s1 ∧
    range_sum_no_cache array (m + 1) r = Returns s2 ∧
    range_sum_no_cache array l r = Returns (s1 + s2).
Proof.
  intros Hl Hlm Hmr Hr. eexists _, _. split_and!; [done | done |].
  unfold range_sum_no_cache. f_equal.
  rewrite !list_slice_valid by lia. rewrite <- sum_app. f_equal.
  replace (Z.to_nat (r + 1 - l))
    with (Z.to_nat (m + 1 - l) + Z.to_nat (r + 1 - (m + 1)))%nat by lia.
  rewrite <- take_take_drop, drop_drop. do 3 f_equal. lia.
Qed.

Lemma range_sum_split_witness :
  ∃ s1 s2,
    range_sum_no_cache [1;2;3;4;5] 1 2 = Returns s1 ∧
    range_sum_no_cache [1;2;3;4;5] (2 + 1) 4 = Returns s2 ∧
    range_sum_no_cache [1;2;3;4;5] 1 4 = Returns (s1 + s2).
Proof. apply range_sum_split; simpl; lia. Defined.

(** X10. A right end at or past the last index is clamped to the array: the
    query from 0 sums the whole array. *)
Theorem range_sum_clamped (array : list Z) (r : Z) :
  -1 ≤ r → Z.of_nat (length array) - 1 ≤ r →
  range_sum_no_cache array 0 r = Returns (sum array).
Proof.
  intros Hr Hn. unfold range_sum_no_cache, list_slice, slice_index.
  destruct (Z.ltb_spec 0 0); [lia|].
  destruct (Z.ltb_spec (r + 1) 0); [lia|].
  rewrite (Z.min_r (r + 1)), (Z.min_l 0) by lia. simpl.
  by rewrite drop_0, take_ge by lia.
Qed.

Lemma range_sum_clamped_witness :
  range_sum_no_cache [1;2;3] 0 7 = Returns (sum [1;2;3]).
Proof. apply range_sum_clamped; simpl; lia. Defined.

Lemma list_slice_insert_inside (array : list Z) (l r i x old : Z) :
  0 ≤ l → l ≤ i → i ≤ r → r < Z.of_nat (length array) →
  array !! Z.to_nat i = Some old →
  sum (list_slice (<[Z.to_nat i := x]> array) l (r + 1))
  = sum (list_slice array l (r + 1)) + x - old.
Proof.
  intros Hl Hli Hir Hr Hold.
  rewrite !list_slice_valid by (rewrite ?length_insert; lia).
  rewrite drop_insert_ge, take_insert_lt by lia.
  apply sum_insert. rewrite lookup_take_lt by lia.
  rewrite lookup_drop. rewrite <- Hold. f_equal. lia.
Qed.

(** X11. Writing [x] at an in-bounds index inside an in-bounds range moves
    the uncached sum of the range by [x] minus the value overwritten. *)
Theorem update_shifts_sum (array : list Z) (l r i x old : Z) :
  0 ≤ l → l ≤ i → i ≤ r → r < Z.of_nat (length array) →
  array !! Z.to_nat i = Some old →
  ∃ array' s,
    update_no_cache array i x = Returns array' ∧
    range_sum_no_cache array l r = Returns s ∧
    range_sum_no_cache array' l r = Returns (s + x - old).
Proof.
  intros Hl Hli Hir Hr Hold.
  destruct (list_setitem_cases array i x) as [[? _]|[_ E]]; [lia|].
  destruct (Z.ltb_spec i 0); [lia|].
  eexists _, _. split_and!; [exact E | done |].
  unfold range_sum_no_cache. f_equal. by apply list_slice_insert_inside.
Qed.

Lemma update_shifts_sum_witness :
  ∃ array' s,
    update_no_cache [1;2;3;4;5] 2 100 = Returns array' ∧
    range_sum_no_cache [1;2;3;4;5] 1 3 = Returns s ∧
    range_sum_no_cache array' 1 3 = Returns (s + 100 - 3).
Proof. apply update_shifts_sum; simpl; (lia || reflexivity). Defined.

(** X12. The cached service can serve a stale sum after a negative index.
    When a cached range (with a sum other than -1) covers the position
    [index + n] that a negative index writes, and the value written differs
    from the one overwritten, the next cached query still answers the old
    sum while the uncached scan answers the new one. *)
Theorem negative_index_diverges (array : list Z) (index value : Z)
    (c : LRUCache) (l r v old : Z) :
  - Z.of_nat (length array) ≤ index → index < 0 →
  Forall (λ e : key * Z, 0 ≤ e.1.1) (cache c) →
  0 ≤ l → l ≤ index + Z.of_nat (length array) →
  index + Z.of_nat (length array) ≤ r → r < Z.of_nat (length array) →
  OrderedDict.getitem (l, r) (cache c) = Some v →
  v = sum (list_slice array l (r + 1)) → v ≠ -1 →
  array !! Z.to_nat (index + Z.of_nat (length array)) = Some old →
  value ≠ old →
  ∃ array' c' c'',
    update_no_cache array index value = Returns array' ∧
    update_with_cache array index value c = Returns (array', c') ∧
    range_sum_with_cache array' l r c' = Returns (v, c'') ∧
    range_sum_no_cache array' l r = Returns (v + value - old) ∧
    v + value - old ≠ v.
Proof.
  intros Hlo Hneg Hkeys Hl Hli Hir Hr Hv Hsum Hv1 Hold Hne.
  eexists _, c, _. split_and!.
  - unfold update_no_cache.
    destruct (list_setitem_cases array index value) as [[? _]|[_ E]]; [lia|].
    rewrite E. by destruct (Z.ltb_spec index 0); [|lia].
  - by apply negative_index_keeps_cache.
  - unfold range_sum_with_cache, range_sum_with_cache_path.
    rewrite (get_hit c (l, r) v Hv).
    by destruct (Z.eqb_spec v (-1)).
  - unfold range_sum_no_cache. f_equal. subst v.
    by apply list_slice_insert_inside.
  - lia.
Qed.

Lemma negative_index_diverges_witness :
  ∃ array' c' c'',
    update_no_cache [1;2;3;4;5] (-3) 100 = Returns array' ∧
    update_with_cache [1;2;3;4;5] (-3) 100
      {| cache := [((1,3), 9)]; capacity := 2 |} = Returns (array', c') ∧
    range_sum_with_cache array' 1 3 c' = Returns (9, c'') ∧
    range_sum_no_cache array' 1 3 = Returns (9 + 100 - 3) ∧
    9 + 100 - 3 ≠ 9.
Proof.
  apply (negative_index_diverges [1;2;3;4;5] (-3) 100
           {| cache := [((1,3), 9)]; capacity := 2 |} 1 3 9 3);
    try (simpl; lia); try reflexivity.
  repeat constructor. simpl. lia.
Defined.

(** ** Whole sessions *)

(** X13. The two services fail together and write the same array, whatever
    the queries and whatever the cache holds: if the uncached session raises
    then the cached one raises the same [IndexError], and if it returns then
    the cached one returns as many answers and the same final array. *)
Theorem sessions_fail_together (queries : list Operation) (array : list Z)
    (c : LRUCache) :
  match run_no_cache array queries with
  | Raises e => e = IndexError ∧ run_with_cache array c queries = Raises e
  | Returns (vs, array') =>
      ∃ vs' c', run_with_cache array c queries = Returns (vs', (array', c')) ∧
                length vs' = length vs
  end.
Proof.
  revert array c. induction queries as [|q qs IH]; intros array c.
  - simpl. by exists [], c.
  - destruct q as [i x | l r]; simpl.
    + unfold update_no_cache, update_with_cache.
      destruct (list_setitem_cases array i x) as [[_ E]|[_ E]]; rewrite E; simpl.
      * done.
      * apply IH.
    + destruct (range_sum_with_cache_returns array l r c) as (v & c1 & E & _).
      rewrite E. simpl. specialize (IH array c1).
      destruct (run_no_cache array qs) as [[vs a']|e]; simpl.
      * destruct IH as (vs' & c' & -> & Hlen). simpl.
        exists (v :: vs'), c'. split; [done|]. simpl. by rewrite Hlen.
      * destruct IH as [-> ->]. done.
Qed.

Lemma wf_put (c : LRUCache) (k : key) (v : Z) :
  OrderedDict.wf (cache c) → OrderedDict.wf (cache (put c k v)).
Proof.
  unfold OrderedDict.wf. intros Hwf. rewrite keys_put. simpl.
  pose proof (NoDup_bump _ k Hwf) as Hnd.
  destruct (_ >? _); [|done].
  apply (sublist_NoDup _ _ Hnd), sublist_drop.
Qed.

Lemma range_sum_with_cache_path_cases (array : list Z) (l r : Z) (c : LRUCache) :
  range_sum_with_cache_path array l r c
  = (CacheHit, (get c (l, r)).1, (get c (l, r)).2) ∧ (get c (l, r)).1 ≠ -1 ∨
  range_sum_with_cache_path array l r c
  = (CacheMiss, sum (list_slice array l (r + 1)),
     put (get c (l, r)).2 (l, r) (sum (list_slice array l (r + 1)))) ∧
  (get c (l, r)).1 = -1.
Proof.
  unfold range_sum_with_cache_path. destruct (get c (l, r)) as [v c1]. simpl.
  destruct (Z.eqb_spec v (-1)); simpl; [by right | by left].
Qed.

(** A well-formed cache within its capacity. *)
Lemma good_get (c : LRUCache) (k : key) :
  OrderedDict.wf (cache c) ∧ Z.of_nat (size c) ≤ capacity c →
  OrderedDict.wf (cache (get c k).2) ∧
  Z.of_nat (size (get c k).2) ≤ capacity (get c k).2.
Proof.
  intros [Hwf Hsz]. split; [by apply wf_get|].
  rewrite capacity_get. pose proof (size_get_le c k). lia.
Qed.

Lemma good_put (c : LRUCache) (k : key) (v : Z) :
  OrderedDict.wf (cache c) ∧ Z.of_nat (size c) ≤ capacity c →
  OrderedDict.wf (cache (put c k v)) ∧
  Z.of_nat (size (put c k v)) ≤ capacity (put c k v).
Proof.
  intros [Hwf Hsz]. split; [by apply wf_put|].
  rewrite capacity_put. by apply size_put_le.
Qed.

(** X14. A session of the cached service that returns keeps the cache
    sound: starting from a cache without repeated keys and within its
    capacity, it ends in one, with the same capacity, and the array keeps
    its length.  No bound on the query arguments is needed. *)
Theorem session_invariants (queries : list Operation) (array : list Z)
    (c : LRUCache) (vs array' : list Z) (c' : LRUCache) :
  OrderedDict.wf (cache c) → Z.of_nat (size c) ≤ capacity c →
  run_with_cache array c queries = Returns (vs, (array', c')) →
  OrderedDict.wf (cache c') ∧
  Z.of_nat (size c') ≤ capacity c' ∧
  capacity c' = capacity c ∧
  length array' = length array.
Proof.
  revert array c vs. induction queries as [|q qs IH]; intros array c vs Hwf Hsz.
  - simpl. by intros [= <- <- <-].
  - destruct q as [i x | l r]; simpl.
    + destruct (update_with_cache array i x c) as [[a1 c1]|e] eqn:E; [|done].
      simpl. intros Hrun.
      apply update_with_cache_inv in E as (_ & Hlen & Hcap & Hc).
      destruct (IH a1 c1 vs) as (? & ? & ? & ?); [| |done|].
      * unfold OrderedDict.wf, OrderedDict.keys. rewrite Hc.
        apply (sublist_NoDup _ _ Hwf), fmap_sublist, sublist_filter.
      * rewrite Hcap. unfold size in *. rewrite Hc.
        pose proof (length_filter
          (λ e : key * Z, ¬ (e.1.1 ≤ i ∧ i ≤ e.1.2)) (cache c)). lia.
      * split_and!; [done | done | congruence | congruence].
    + unfold range_sum_with_cache.
      destruct (range_sum_with_cache_path array l r c) as [[p v] c1] eqn:E.
      simpl.
      destruct (run_with_cache array c1 qs) as [[vs1 [a1 c2]]|e] eqn:Hrun;
        [|done].
      simpl. intros [= <- <- <-].
      assert ((OrderedDict.wf (cache c1) ∧ Z.of_nat (size c1) ≤ capacity c1) ∧
              capacity c1 = capacity c) as [[Hwf1 Hsz1] Hcap1].
      { destruct (range_sum_with_cache_path_cases array l r c)
          as [[E' _]|[E' _]]; rewrite E' in E; injection E as <- <- <-.
        - split; [by apply good_get | apply capacity_get].
        - split; [by apply good_put, good_get|].
          by rewrite capacity_put, capacity_get. }
      destruct (IH array c1 vs1 Hwf1 Hsz1 Hrun) as (? & ? & ? & ?).
      split_and!; [done | done | congruence | done].
Qed.

Lemma session_invariants_witness :
  let c := {| cache := []; capacity := 1 |} in
  let c' := {| cache := [((0,0), 1)]; capacity := 1 |} in
  OrderedDict.wf (cache c') ∧
  Z.of_nat (size c') ≤ capacity c' ∧
  capacity c' = capacity c ∧
  length [1;2;9] = length [1;2;3].
Proof.
  apply (session_invariants [Range 1 7; Update (-1) 9; Range 0 0] [1;2;3]
           {| cache := []; capacity := 1 |} [5; 1]).
  - apply NoDup_nil_2.
  - unfold size. simpl. lia.
  - reflexivity.
Defined.

Lemma get_last (c : LRUCache) (k : key) (v : Z) (d : list (key * Z)) :
  k ∉ OrderedDict.keys d → cache c = d ++ [(k, v)] → get c k = (v, c).
Proof.
  intros Hk Hd. rewrite (get_hit _ k v).
  - f_equal. destruct c as [d' K]. simpl in *. subst d'. f_equal.
    unfold OrderedDict.delitem. rewrite filter_app.
    fold (OrderedDict.delitem k d). rewrite delitem_notin by done.
    rewrite (filter_cons_False (λ e : key * Z, e.1 ≠ k)) by (simpl; tauto).
    by rewrite filter_nil, app_nil_r.
  - rewrite Hd, getitem_app_notin by done. simpl. by rewrite decide_True.
Qed.

(** X15. With a positive capacity, a range query whose answer is not -1 is
    served from the cache when it is asked again at once: the second query
    takes the hit branch, returns the same value and leaves the cache as
    the first query left it, whatever the array holds by then. *)
Theorem repeated_query_hits (array array2 : list Z) (l r : Z) (c : LRUCache)
    (p : path) (v : Z) (c' : LRUCache) :
  0 < capacity c →
  range_sum_with_cache_path array l r c = (p, v, c') →
  v ≠ -1 →
  range_sum_with_cache_path array2 l r c' = (CacheHit, v, c').
Proof.
  intros Hcap E Hv.
  assert (get c' (l, r) = (v, c')) as Hget.
  { destruct (range_sum_with_cache_path_cases array l r c)
      as [[E' _]|[E' _]]; rewrite E' in E; injection E as <- <- <-.
    - apply get_get.
    - destruct (cache_put_last (get c (l, r)).2 (l, r)
                  (sum (list_slice array l (r + 1)))) as (d & Hk & Hd).
      { by rewrite capacity_get. }
      by apply (get_last _ _ _ d). }
  unfold range_sum_with_cache_path. rewrite Hget.
  by destruct (Z.eqb_spec v (-1)).
Qed.

Lemma repeated_query_hits_witness :
  let c := {| cache := []; capacity := 1 |} in
  let c' := {| cache := [((1,3), 9)]; capacity := 1 |} in
  range_sum_with_cache_path [0;0;0;0;0] 1 3 c' = (CacheHit, 9, c').
Proof.
  apply (repeated_query_hits [1;2;3;4;5] [0;0;0;0;0] 1 3
           {| cache := []; capacity := 1 |} CacheMiss 9).
  - simpl. lia.
  - reflexivity.
  - lia.
Defined.

(** * Further properties of the workload generator *)

(** A range of the hot pool, for an array of [n] elements. *)
Lemma make_hot_spec (n : Z) (count : nat) (g : Random) :
  1 ≤ n →
  ∃ hot g',
    make_hot n count g = Returns (hot, g') ∧ length hot = count ∧
    Forall (λ lr : key, valid_op n (Range lr.1 lr.2)) hot.
Proof.
  intros Hn.
  assert (0 ≤ n `div` 2 ∧ n `div` 2 ≤ n - 1) as [Hlo Hhi].
  { split; [apply Z.div_pos; lia|].
    assert (n `div` 2 < n) by (apply Z.div_lt_upper_bound; lia). lia. }
  revert g. induction count as [|count IH]; intros g.
  - by exists [], g.
  - simpl.
    destruct (randint_bounds 0 (n `div` 2) g) as (l & g1 & -> & ? & ?); [done|].
    simpl.
    destruct (randint_bounds (n `div` 2) (n - 1) g1) as (r & g2 & -> & ? & ?);
      [done|].
    simpl. destruct (IH g2) as (hot & g3 & -> & Hlen & Hall). simpl.
    exists ((l, r) :: hot), g3. split_and!; [done | by rewrite <- Hlen |].
    constructor; [simpl; lia | done].
Qed.

Lemma choice_elem_of {A} (seq : list A) (g : Random) :
  seq ≠ [] → ∃ a g', choice seq g = Returns (a, g') ∧ a ∈ seq.
Proof.
  destruct seq as [|a0 seq]; [done|]. intros _.
  unfold choice, randbelow, draw. eexists _, _. split; [done|].
  set (i := Z.to_nat _).
  destruct ((a0 :: seq) !! i) as [a|] eqn:E; simpl.
  - by apply list_elem_of_lookup_2 in E.
  - left.
Qed.

Lemma bind_Returns {A B} (a : A) (f : A → outcome B) :
  (Returns a ≫= f) = f a.
Proof. done. Qed.

Ltac bind_step := rewrite bind_Returns; cbv beta iota.

Lemma make_ops_valid (n : Z) (hot : list key) (p_hot p_update : Q)
    (count : nat) (g : Random) :
  1 ≤ n → hot ≠ [] →
  Forall (λ lr : key, valid_op n (Range lr.1 lr.2)) hot →
  ∃ qs g',
    make_ops n hot p_hot p_update count g = Returns (qs, g') ∧
    length qs = count ∧
    Forall (valid_op n) qs ∧ Forall small_update qs.
Proof.
  intros Hn Hne Hhot. revert g. induction count as [|count IH]; intros g.
  - by exists [], g.
  - cbn [make_ops]. destruct (random g) as [u g1].
    match goal with |- ∃ _ _, (?m ≫= _) = _ ∧ _ =>
      assert (∃ q g2, m = Returns (q, g2) ∧ valid_op n q ∧ small_update q)
        as (q & g2 & -> & Hq & Hs) end.
    { destruct (Qltb u p_update).
      - destruct (randint_bounds 0 (n - 1) g1) as (idx & g2 & -> & ? & ?); [lia|].
        bind_step.
        destruct (randint_bounds 1 100 g2) as (val & g3 & -> & ? & ?); [lia|].
        bind_step. eexists _, _. split; [done|]. simpl. lia.
      - destruct (random g1) as [h g2]. destruct (Qltb h p_hot).
        + destruct (choice_elem_of hot g2 Hne) as (lr & g3 & -> & Hin).
          bind_step. eexists _, _. split; [done|]. split; [|done].
          rewrite Forall_forall in Hhot. by apply Hhot.
        + destruct (randint_bounds 0 (n - 1) g2) as (l & g3 & -> & ? & ?); [lia|].
          bind_step.
          destruct (randint_bounds l (n - 1) g3) as (r & g4 & -> & ? & ?); [lia|].
          bind_step. eexists _, _. split; [done|]. simpl. lia. }
    bind_step. destruct (IH g2) as (qs & g3 & -> & Hlen & Hv & Hsm). bind_step.
    exists (q :: qs), g3. split_and!; [done | by rewrite <- Hlen | |];
      by constructor.
Qed.

(** X16. For an array of at least one element and a hot pool of at least one
    range, [make_queries] returns, whatever the random source and the two
    probabilities: it yields [q] queries, every one has in-bounds arguments
    (0 <= left <= right < n, 0 <= index < n), and every update writes a
    value of [1, 100]. *)
Theorem make_queries_valid (n q hot_pool : Z) (p_hot p_update : Q)
    (g : Random) :
  1 ≤ n → 1 ≤ hot_pool →
  ∃ qs g',
    make_queries n q hot_pool p_hot p_update g = Returns (qs, g') ∧
    length qs = Z.to_nat q ∧
    Forall (valid_op n) qs ∧ Forall small_update qs.
Proof.
  intros Hn Hpool. unfold make_queries.
  destruct (make_hot_spec n (Z.to_nat hot_pool) g Hn)
    as (hot & g1 & -> & Hlen & Hhot).
  bind_step. apply make_ops_valid; [done | | done].
  intros ->. simpl in Hlen. lia.
Qed.

Lemma make_queries_valid_witness :
  ∃ qs g',
    make_queries 5 4 3 (95 # 100) (3 # 100)
      {| tape := λ i, Z.of_nat (7 * i); pos := 0 |} = Returns (qs, g') ∧
    length qs = Z.to_nat 4 ∧
    Forall (valid_op 5) qs ∧ Forall small_update qs.
Proof. apply make_queries_valid; lia. Defined.

(** X17. The main program's comparison is sound: on a non-empty array, the
    queries that [make_queries] generates for its length get the same
    answers from the cached service, started on a fresh cache of any
    capacity, as from the uncached one, and both end on the same array. *)
Theorem generated_session_agrees (array : list Z) (K q hot_pool : Z)
    (p_hot p_update : Q) (g : Random) :
  array ≠ [] → 1 ≤ hot_pool →
  ∃ qs g' vs array' c',
    make_queries (Z.of_nat (length array)) q hot_pool p_hot p_update g
    = Returns (qs, g') ∧
    run_no_cache array qs = Returns (vs, array') ∧
    run_with_cache array {| cache := []; capacity := K |} qs
    = Returns (vs, (array', c')).
Proof.
  intros Hne Hpool.
  assert (1 ≤ Z.of_nat (length array)) as Hn.
  { destruct array; [done | simpl; lia]. }
  unfold make_queries.
  destruct (make_hot_spec _ (Z.to_nat hot_pool) g Hn)
    as (hot & g1 & -> & Hlen & Hhot).
  bind_step.
  destruct (make_ops_valid (Z.of_nat (length array)) hot p_hot p_update
              (Z.to_nat q) g1) as (qs & g' & -> & _ & Hvalid & _);
    [done | | done |].
  { intros ->. simpl in Hlen. lia. }
  destruct (run_with_cache_coherent qs array {| cache := []; capacity := K |})
    as (vs & array' & c' & R1 & R2 & _); [by constructor | done |].
  by exists qs, g', vs, array', c'.
Qed.

Lemma generated_session_agrees_witness :
  ∃ qs g' vs array' c',
    make_queries (Z.of_nat (length [1;2;3;4;5])) 6 2 (1 # 2) (1 # 2)
      {| tape := λ i, Z.of_nat (3 * i); pos := 0 |} = Returns (qs, g') ∧
    run_no_cache [1;2;3;4;5] qs = Returns (vs, array') ∧
    run_with_cache [1;2;3;4;5] {| cache := []; capacity := 1 |} qs
    = Returns (vs, (array', c')).
Proof. apply generated_session_agrees; [discriminate | lia]. Defined.

Lemma randint_empty (a b : Z) (g : Random) :
  b < a → randint a b g = Raises ValueError.
Proof. intros Hba. unfold randint. by destruct (Z.ltb_spec b a); [|lia]. Qed.

(** X18. For an array size of zero or less, [make_queries] with a hot pool
    of at least one range raises [ValueError] while it builds the pool. *)
Theorem make_queries_empty_array (n q hot_pool : Z) (p_hot p_update : Q)
    (g : Random) :
  n ≤ 0 → 1 ≤ hot_pool →
  make_queries n q hot_pool p_hot p_update g = Raises ValueError.
Proof.
  intros Hn Hpool. unfold make_queries.
  destruct (Z.to_nat hot_pool) as [|count] eqn:E; [lia|].
  cbn [make_hot].
  destruct (Z.eq_dec n 0) as [->|Hn0].
  - destruct (randint_bounds 0 (0 `div` 2) g) as (l & g1 & -> & _); [done|].
    bind_step. by rewrite randint_empty.
  - rewrite randint_empty; [done|]. apply Z.div_lt_upper_bound; lia.
Qed.

Lemma make_queries_empty_array_witness :
  make_queries 0 4 3 (95 # 100) (3 # 100)
    {| tape := λ i, Z.of_nat i; pos := 0 |} = Raises ValueError.
Proof. apply make_queries_empty_array; lia. Defined.

Lemma random_range (g : Random) : (0 <= (random g).1)%Q ∧ ((random g).1 < 1)%Q.
Proof.
  unfold random, draw. simpl.
  pose proof (Z.mod_pos_bound (tape g (pos g)) (2 ^ 53)) as Hm.
  unfold Qle, Qlt. simpl in *. lia.
Qed.

Lemma Qltb_false (x p : Q) : (p <= x)%Q → Qltb x p = false.
Proof. intros Hle. unfold Qltb. by apply Qle_bool_iff in Hle as ->. Qed.

Lemma Qltb_true (x p : Q) : (x < p)%Q → Qltb x p = true.
Proof.
  intros Hlt. unfold Qltb. destruct (Qle_bool p x) eqn:E; [|done].
  apply Qle_bool_iff in E. by apply Qlt_not_le in Hlt.
Qed.

(** X19. With an empty hot pool, a first query that is drawn from the pool
    makes [make_queries] raise [IndexError]; this is every run with at
    least one query when no update is ever chosen (p_update <= 0) and the
    pool always is (p_hot >= 1). *)
Theorem make_queries_empty_pool (n q hot_pool : Z) (p_hot p_update : Q)
    (g : Random) :
  hot_pool ≤ 0 → 1 ≤ q → (p_update <= 0)%Q → (1 <= p_hot)%Q →
  make_queries n q hot_pool p_hot p_update g = Raises IndexError.
Proof.
  intros Hpool Hq Hup Hhot. unfold make_queries.
  replace (Z.to_nat hot_pool) with 0%nat by lia. cbn [make_hot]. bind_step.
  destruct (Z.to_nat q) as [|count] eqn:E; [lia|]. cbn [make_ops].
  pose proof (random_range g) as [Hu0 Hu1].
  destruct (random g) as [u g1]. simpl in Hu0, Hu1.
  rewrite Qltb_false by (by apply (Qle_trans _ 0)).
  pose proof (random_range g1) as [Hh0 Hh1].
  destruct (random g1) as [h g2]. simpl in Hh0, Hh1.
  rewrite Qltb_true by (by apply (Qlt_le_trans _ 1)).
  done.
Qed.

Lemma make_queries_empty_pool_witness :
  make_queries 5 4 0 1 0 {| tape := λ i, Z.of_nat i; pos := 0 |}
  = Raises IndexError.
Proof. apply make_queries_empty_pool; (lia || done). Defined.

(** * The sliding-window rate limiter *)

Section limiter_facts.
Context `{FloatOps T}.
Implicit Types (s : SlidingWindowRateLimiter T) (u : string) (t : T)
  (ts : list T).

Lemma drop_expired_suffix (start : T) ts :
  drop_expired start ts `suffix_of` ts.
Proof.
  induction ts as [|t ts IH]; simpl; [done|].
  destruct (fle t start); [by apply suffix_cons_r | done].
Qed.

Lemma length_drop_expired (start : T) ts :
  (length (drop_expired start ts) ≤ length ts)%nat.
Proof. apply suffix_length, drop_expired_suffix. Qed.

Lemma drop_expired_idemp (start : T) ts :
  drop_expired start (drop_expired start ts) = drop_expired start ts.
Proof.
  induction ts as [|t ts IH]; simpl; [done|].
  destruct (fle t start) eqn:E; [done|]. simpl. by rewrite E.
Qed.

Lemma cleanup_lookup s u t :
  user_requests (_cleanup_window s u t) !! u = cleaned s u t.
Proof.
  unfold _cleanup_window, cleaned.
  destruct (user_requests s !! u) as [ts|] eqn:E; [|done]. simpl.
  destruct (drop_expired _ ts); [apply lookup_delete_eq | apply lookup_insert_eq].
Qed.

Lemma cleanup_lookup_ne s u u' t :
  u ≠ u' → user_requests (_cleanup_window s u t) !! u' = user_requests s !! u'.
Proof.
  intros Hne. unfold _cleanup_window.
  destruct (user_requests s !! u) as [ts|] eqn:E; [|done]. simpl.
  destruct (drop_expired _ ts);
    [by apply lookup_delete_ne | by apply lookup_insert_ne].
Qed.

Lemma cleanup_params s u t :
  window_size (_cleanup_window s u t) = window_size s ∧
  max_requests (_cleanup_window s u t) = max_requests s.
Proof.
  unfold _cleanup_window. by destruct (user_requests s !! u).
Qed.

Lemma cleaned_nonempty s u t ts : cleaned s u t = Some ts → ts ≠ [].
Proof.
  unfold cleaned. destruct (user_requests s !! u) as [ts0|]; [|done].
  destruct (drop_expired _ ts0); [done|]. by intros [= <-].
Qed.

Lemma cleaned_length s u t ts :
  cleaned s u t = Some ts →
  ∃ ts0, user_requests s !! u = Some ts0 ∧ (length ts ≤ length ts0)%nat.
Proof.
  unfold cleaned. destruct (user_requests s !! u) as [ts0|]; [|done].
  pose proof (length_drop_expired (fsub t (window_size s)) ts0) as Hlen.
  destruct (drop_expired _ ts0) eqn:E; [done|]. intros [= <-]. by exists ts0.
Qed.

Lemma cleanup_bounded s u t :
  windows_bounded s → windows_bounded (_cleanup_window s u t).
Proof.
  intros Hb u' ts Hts. destruct (cleanup_params s u t) as [_ ->].
  destruct (decide (u = u')) as [<-|Hne].
  - rewrite cleanup_lookup in Hts. split; [by eapply cleaned_nonempty|].
    apply cleaned_length in Hts as (ts0 & Hts0 & Hlen).
    destruct (Hb u ts0 Hts0). lia.
  - rewrite cleanup_lookup_ne in Hts by done. exact (Hb u' ts Hts).
Qed.

(** [record_message], with the two dictionary steps merged. *)
Lemma record_message_eq s u t1 t2 :
  record_message s u t1 t2
  = let s1 := _cleanup_window s u t1 in
    if (can_send_message s u t1).1
    then (true, {| window_size := window_size s1;
                   max_requests := max_requests s1;
                   user_requests :=
                     <[u := default [] (cleaned s u t1) ++ [t2]]>
                       (user_requests s1) |})
    else (false, s1).
Proof.
  unfold record_message, can_send_message. simpl.
  rewrite cleanup_lookup.
  destruct (cleaned s u t1) as [ts|] eqn:E; simpl.
  - destruct (bool_decide _); [|done].
    by rewrite cleanup_lookup, E.
  - by rewrite lookup_insert_eq, insert_insert_eq.
Qed.

Lemma step_params s (op : limiter_call T) :
  window_size (limiter_step s op) = window_size s ∧
  max_requests (limiter_step s op) = max_requests s.
Proof.
  destruct op as [u t|u t1 t2|u t]; cbn [limiter_step];
    [apply cleanup_params | | apply cleanup_params].
  rewrite record_message_eq. cbv zeta.
  destruct (can_send_message s u t1).1; apply cleanup_params.
Qed.

Lemma step_bounded s (op : limiter_call T) :
  windows_bounded s → windows_bounded (limiter_step s op).
Proof.
  intros Hb. destruct op as [u t|u t1 t2|u t]; cbn [limiter_step];
    [by apply cleanup_bounded | | by apply cleanup_bounded].
  rewrite record_message_eq. cbv zeta.
  destruct (can_send_message s u t1).1 eqn:Hok; cbn [snd];
    [|by apply cleanup_bounded].
  pose proof (cleanup_bounded s u t1 Hb) as Hb1.
  intros u' ts. simpl. destruct (decide (u = u')) as [<-|Hne].
  - rewrite lookup_insert_eq. intros [= <-].
    split; [by destruct (default [] _)|].
    unfold can_send_message in Hok. simpl in Hok.
    rewrite cleanup_lookup in Hok. rewrite length_app. simpl.
    destruct (cleaned s u t1) as [ts1|]; simpl; [|lia].
    apply bool_decide_eq_true in Hok. lia.
  - rewrite lookup_insert_ne by done. apply Hb1.
Qed.

End limiter_facts.

(** X20. Through any sequence of calls of the three public methods, with
    any clock readings, the limiter keeps every stored window non-empty and
    at most [max_requests] stamps long (one stamp, when [max_requests] is
    below 1), and never changes its two parameters. *)
Theorem windows_stay_bounded `{FloatOps T} (ops : list (limiter_call T))
    (s : SlidingWindowRateLimiter T) :
  windows_bounded s →
  windows_bounded (foldl limiter_step s ops) ∧
  window_size (foldl limiter_step s ops) = window_size s ∧
  max_requests (foldl limiter_step s ops) = max_requests s.
Proof.
  revert s. induction ops as [|op ops IH]; intros s Hb; [done|].
  simpl. destruct (IH (limiter_step s op)) as (Hb' & Hw & Hm).
  { by apply step_bounded. }
  destruct (step_params s op) as [Hw1 Hm1].
  split_and!; [done | congruence | congruence].
Qed.

Lemma windows_stay_bounded_witness :
  let s := @limiter_init Z 10 1 in
  let ops := [Record "1" 0 0; Record "1" 3 3; TimeUntil "1" 4;
              Record "2" 5 5; Record "1" 12 12; CanSend "2" 30] in
  windows_bounded (foldl (@limiter_step Z Z_float_ops) s ops) ∧
  window_size (foldl (@limiter_step Z Z_float_ops) s ops) = window_size s ∧
  max_requests (foldl (@limiter_step Z Z_float_ops) s ops) = max_requests s.
Proof.
  apply (@windows_stay_bounded Z Z_float_ops).
  intros u ts Hts. unfold limiter_init in Hts. simpl in Hts.
  by rewrite lookup_empty in Hts.
Defined.

(** X21. A call for one user leaves the window of every other user exactly
    as it was. *)
Theorem other_users_untouched `{FloatOps T} (s : SlidingWindowRateLimiter T)
    (op : limiter_call T) (u' : string) :
  call_user op ≠ u' →
  user_requests (limiter_step s op) !! u' = user_requests s !! u'.
Proof.
  intros Hne. destruct op as [u t|u t1 t2|u t]; cbn [limiter_step];
    simpl in Hne; [by apply cleanup_lookup_ne | | by apply cleanup_lookup_ne].
  rewrite record_message_eq. cbv zeta.
  destruct (can_send_message s u t1).1; cbn [snd user_requests].
  - rewrite lookup_insert_ne by done. by apply cleanup_lookup_ne.
  - by apply cleanup_lookup_ne.
Qed.

Lemma other_users_untouched_witness :
  let s := {| window_size := 10; max_requests := 1;
              user_requests := {[ "1" := [0]; "2" := [5] ]} |} in
  user_requests (@limiter_step Z Z_float_ops s (Record "1" 12 12)) !! "2"
  = user_requests s !! "2".
Proof. apply (@other_users_untouched Z Z_float_ops). discriminate. Defined.

(** X22. [time_until_next_allowed] never raises: the deque it reads the
    first stamp of is never empty.  It leaves the limiter as
    [can_send_message] does at the same reading, returns 0.0 when
    [can_send_message] answers True, and otherwise the larger of 0.0 and
    (oldest stamp + window_size - current_time). *)
Theorem time_until_next_allowed_returns `{FloatOps T}
    (s : SlidingWindowRateLimiter T) (u : string) (t : T) :
  ∃ w,
    time_until_next_allowed s u t = Returns (w, (can_send_message s u t).2) ∧
    ((can_send_message s u t).1 = true → w = fzero) ∧
    ((can_send_message s u t).1 = false →
     ∃ oldest rest,
       cleaned s u t = Some (oldest :: rest) ∧
       w = let wait_time := fsub (fadd oldest (window_size s)) t in
           if fgt wait_time fzero then wait_time else fzero).
Proof.
  unfold time_until_next_allowed, can_send_message. cbn [fst snd].
  rewrite cleanup_lookup. destruct (cleanup_params s u t) as [-> ->].
  destruct (cleaned s u t) as [ts|] eqn:E.
  - destruct (bool_decide _) eqn:Hlt.
    + exists fzero. by split_and!.
    + pose proof (cleaned_nonempty s u t ts E) as Hne.
      destruct ts as [|oldest rest]; [done|].
      eexists. split_and!; [done | done |]. intros _. by exists oldest, rest.
  - exists fzero. by split_and!.
Qed.

Lemma time_until_next_allowed_returns_witness :
  let s := {| window_size := 10; max_requests := 1;
              user_requests := {[ "1" := [3] ]} |} in
  ∃ w,
    @time_until_next_allowed Z Z_float_ops s "1" 7
    = Returns (w, (@can_send_message Z Z_float_ops s "1" 7).2) ∧
    ∃ oldest rest,
      @cleaned Z Z_float_ops s "1" 7 = Some (oldest :: rest) ∧
      w = let wait_time := oldest + 10 - 7 in
          if wait_time >? 0 then wait_time else 0.
Proof.
  destruct (@time_until_next_allowed_returns Z Z_float_ops
              {| window_size := 10; max_requests := 1;
                 user_requests := {[ "1" := [3] ]} |} "1" 7)
    as (w & Hr & _ & Hw).
  exists w. split; [exact Hr|]. apply Hw. reflexivity.
Defined.

(** X23. The first message of a user the limiter does not know is always
    recorded, whatever [max_requests] is, zero and negative limits
    included: the user gets a window holding just the new stamp. *)
Theorem first_message_admitted `{FloatOps T} (s : SlidingWindowRateLimiter T)
    (u : string) (t1 t2 : T) :
  user_requests s !! u = None →
  record_message s u t1 t2
  = (true, {| window_size := window_size s; max_requests := max_requests s;
              user_requests := <[u := [t2]]> (user_requests s) |}).
Proof.
  intros Hu. rewrite record_message_eq. cbv zeta.
  unfold can_send_message, cleaned. cbn [fst].
  unfold _cleanup_window. by rewrite Hu, Hu.
Qed.

Lemma first_message_admitted_witness :
  @record_message Z Z_float_ops (limiter_init 10 0) "1" 5 6
  = (true, {| window_size := 10; max_requests := 0;
              user_requests := <["1" := [6]]> ∅ |}).
Proof. apply (@first_message_admitted Z Z_float_ops). reflexivity. Defined.

(** X24. [record_message] answers what [can_send_message] answers at the
    checking time.  An accepted message is stored last in the user's
    window, right after the stamps the cleanup kept; a refused one changes
    nothing beyond the cleanup, and the window then holds at least
    [max_requests] stamps. *)
Theorem record_message_effect `{FloatOps T} (s : SlidingWindowRateLimiter T)
    (u : string) (t1 t2 : T) :
  (record_message s u t1 t2).1 = (can_send_message s u t1).1 ∧
  ((record_message s u t1 t2).1 = true →
   user_requests (record_message s u t1 t2).2 !! u
   = Some (default [] (cleaned s u t1) ++ [t2])) ∧
  ((record_message s u t1 t2).1 = false →
   (record_message s u t1 t2).2 = _cleanup_window s u t1 ∧
   ∃ ts, cleaned s u t1 = Some ts ∧ max_requests s ≤ Z.of_nat (length ts)).
Proof.
  rewrite record_message_eq. cbv zeta.
  destruct (can_send_message s u t1).1 eqn:Hok; cbn [fst snd user_requests].
  - split_and!; [done | by rewrite lookup_insert_eq | done].
  - split_and!; [done | done |]. intros _. split; [done|].
    unfold can_send_message in Hok. cbn [fst] in Hok.
    rewrite cleanup_lookup in Hok. destruct (cleanup_params s u t1) as [_ Hm].
    rewrite Hm in Hok. destruct (cleaned s u t1) as [ts|]; [|done].
    apply bool_decide_eq_false in Hok. exists ts. split; [done | lia].
Qed.

Lemma record_message_effect_witness :
  let s := {| window_size := 10; max_requests := 1;
              user_requests := {[ "1" := [3] ]} |} in
  (@record_message Z Z_float_ops s "1" 7 8).2
  = @_cleanup_window Z Z_float_ops s "1" 7 ∧
  ∃ ts, @cleaned Z Z_float_ops s "1" 7 = Some ts ∧
        max_requests s ≤ Z.of_nat (length ts).
Proof.
  destruct (@record_message_effect Z Z_float_ops
              {| window_size := 10; max_requests := 1;
                 user_requests := {[ "1" := [3] ]} |} "1" 7 8)
    as (_ & _ & Hrefused).
  apply Hrefused. reflexivity.
Defined.

Lemma cleaned_cleanup `{FloatOps T} (s : SlidingWindowRateLimiter T)
    (u : string) (t : T) :
  cleaned (_cleanup_window s u t) u t = cleaned s u t.
Proof.
  unfold cleaned at 1. rewrite cleanup_lookup.
  destruct (cleanup_params s u t) as [-> _]. unfold cleaned.
  destruct (user_requests s !! u) as [ts|]; [|done].
  destruct (drop_expired (fsub t (window_size s)) ts) as [|t0 ts'] eqn:Ed;
    [done|].
  by rewrite <- Ed, drop_expired_idemp, Ed.
Qed.

Lemma limiter_eq {T} (s1 s2 : SlidingWindowRateLimiter T) :
  window_size s1 = window_size s2 → max_requests s1 = max_requests s2 →
  (∀ u, user_requests s1 !! u = user_requests s2 !! u) → s1 = s2.
Proof.
  destruct s1, s2. simpl. intros -> -> Hm. f_equal. by apply map_eq.
Qed.

Lemma cleanup_idemp `{FloatOps T} (s : SlidingWindowRateLimiter T)
    (u : string) (t : T) :
  _cleanup_window (_cleanup_window s u t) u t = _cleanup_window s u t.
Proof.
  apply limiter_eq; [apply cleanup_params | apply cleanup_params |].
  intros u'. destruct (decide (u = u')) as [<-|Hne].
  - by rewrite !cleanup_lookup, cleaned_cleanup.
  - by rewrite cleanup_lookup_ne.
Qed.

(** X25. Asking again at the same clock reading changes nothing:
    [can_send_message] gives the same answer and the same limiter when it
    is called a second time with the reading of the first call. *)
Theorem can_send_message_stable `{FloatOps T} (s : SlidingWindowRateLimiter T)
    (u : string) (t : T) :
  can_send_message (can_send_message s u t).2 u t = can_send_message s u t.
Proof.
  unfold can_send_message. cbn [snd]. by rewrite cleanup_idemp.
Qed.
